(** * oneaway: single-typo variants of a token

    A shallow embedding of [oneaway.py]: the four generators
    ([dropped_letter], [swapped_letter], [swapped_casing], [proximity_typo]),
    the two keyboard layout tables, the combinator [multiple] and its presets
    [common] and [mix].

    A Python generator is observed as the sequence of values it yields followed
    by the way it stops: it returns, or it raises.  A run is embedded as that
    observation, a [trace].  Python strings are sequences of Unicode code
    points; a code point is an [N], a string a list of them. *)

From Stdlib Require Import Ascii.
From stdpp Require Import gmap list strings sorting.

#[local] Set Warnings "-clear-no-such-hyp".

Local Open Scope N_scope.
Local Open Scope nat_scope.

(** ** Strings *)

Abbreviation str := (list N).

(** A literal of ASCII characters as a Python string. *)
Definition py (s : string) : str :=
  Ascii.N_of_ascii <$> String.list_ascii_of_string s.

(** ** The character database

    [str.isspace], [str.islower], [str.isupper], [str.upper] and [str.lower]
    are built-ins of the interpreter, driven by its Unicode character
    database.  The generators take the per-character part of it as a
    parameter. *)

Record Ucd := {
  ch_isspace : N → bool;
  ch_islower : N → bool;
  ch_isupper : N → bool;
  ch_istitle : N → bool;
  ch_upper : N → str;
  ch_lower : N → str;
}.

(** ** Exceptions and traces *)

Inductive exn :=
  | WhitespaceError                      (* ValueError("Encountered whitespace in `value`", ...) *)
  | WhitespaceErrorAt (position : nat)   (* ... "at position {position}" *)
  | UnhandledCasing                      (* ValueError("I didn't handle this, ...") *)
  | UnsupportedCharacter (value : str)   (* ValueError("Unsupported character.", ..., value) *)
  | IndexError.

(** What one generator run shows to its consumer. *)
Record trace := Trace {
  yields : list str;
  raised : option exn;
}.

(** The ways in which one iteration of a generator's [for] loop ends before
    the shared tail [if new_value not in seen: yield new_value; seen.add(new_value)]. *)
Inductive step :=
  | Raise (e : exn)
  | Break
  | Offer (new_values : list str).

(** [if new_value not in seen: yield new_value; seen.add(new_value)], once per
    offered value. *)
Fixpoint emit (seen : gset str) (new_values : list str) : list str * gset str :=
  match new_values with
  | [] => ([], seen)
  | new_value :: rest =>
      if decide (new_value ∈ seen) then emit seen rest
      else
        let '(out, seen') := emit ({[new_value]} ∪ seen) rest in
        (new_value :: out, seen')
  end.

(** A [for] loop of a generator: the body runs on each item in turn, with the
    set [seen] carried from one iteration to the next. *)
Fixpoint for_each {I : Type} (body : I → step) (items : list I)
    (seen : gset str) : trace :=
  match items with
  | [] => Trace [] None
  | item :: rest =>
      match body item with
      | Raise e => Trace [] (Some e)
      | Break => Trace [] None
      | Offer new_values =>
          let '(out, seen') := emit seen new_values in
          let t := for_each body rest seen' in
          Trace (out ++ yields t) (raised t)
      end
  end.

(** [range(n)] and [enumerate(value)]. *)
Definition range (n : nat) : list nat := seq 0 n.
Definition enumerate (value : str) : list (nat * N) := imap pair value.

(** [value.find(sep)] and [value.partition(sep)] for a separator of one
    character, the only kind this program passes: the split is at the first
    occurrence of [sep]. *)
Fixpoint find (value : str) (sep : N) : option nat :=
  match value with
  | [] => None
  | c :: rest => if decide (c = sep) then Some 0 else S <$> find rest sep
  end.

Definition partition (value : str) (sep : N) : str * str * str :=
  match find value sep with
  | Some i => (take i value, [sep], drop (S i) value)
  | None => (value, [], [])
  end.

Section Generators.

Variable ucd : Ucd.

(** *** String methods *)

Definition isspace (s : str) : bool :=
  match s with
  | [] => false
  | _ => forallb (ch_isspace ucd) s
  end.

Definition islower (s : str) : bool :=
  match s with
  | [c] => ch_islower ucd c
  | _ =>
      negb (existsb (λ c, ch_isupper ucd c || ch_istitle ucd c) s)
      && existsb (ch_islower ucd) s
  end.

Definition isupper (s : str) : bool :=
  match s with
  | [c] => ch_isupper ucd c
  | _ =>
      negb (existsb (λ c, ch_islower ucd c || ch_istitle ucd c) s)
      && existsb (ch_isupper ucd) s
  end.

(** [upper] and [lower] map character by character; the one rule of the
    interpreter that looks at the neighbours (a capital sigma at the end of a
    word) needs two characters at least, and the generators apply them to
    one character at a time. *)
Definition upper (s : str) : str := s ≫= ch_upper ucd.
Definition lower (s : str) : str := s ≫= ch_lower ucd.

(** *** dropped_letter *)

Definition dropped_at (value : str) (position : nat) : str :=
  let before := take position value in
  let after := drop (position + 1) value in
  before ++ after.

Definition dropped_letter_body (value : str) (position : nat) : step :=
  match value !! position with
  | None => Raise IndexError
  | Some char =>
      if isspace [char] then Raise WhitespaceError
      else Offer [dropped_at value position]
  end.

Definition dropped_letter (value : str) : trace :=
  for_each (dropped_letter_body value) (range (length value)) ∅.

(** *** swapped_letter *)

Definition swapped_at (value : str) (position : nat) (thischar nextchar : N) : str :=
  let prechars := take position value in
  let postchars := drop (position + 2) value in
  prechars ++ [nextchar] ++ [thischar] ++ postchars.

Definition swapped_letter_body (value : str) (position : nat) : step :=
  match value !! position with
  | None => Raise IndexError
  | Some thischar =>
      match value !! (position + 1) with
      | None => Break
      | Some nextchar =>
          if isspace [thischar] || isspace [nextchar] then Raise WhitespaceError
          else Offer [swapped_at value position thischar nextchar]
      end
  end.

Definition swapped_letter (value : str) : trace :=
  for_each (swapped_letter_body value) (range (length value)) ∅.

(** *** swapped_casing *)

(** The [if dropped.islower() ... elif dropped.isupper() ... else raise]
    of [swapped_casing]: the replacement, when there is one. *)
Definition case_inverted (dropped : str) : option str :=
  if islower dropped then Some (upper dropped)
  else if isupper dropped then Some (lower dropped)
  else None.

Definition swapped_casing_body (value : str) (item : nat * N) : step :=
  let '(position, char) := item in
  if isspace [char] then Raise (WhitespaceErrorAt position)
  else
    let '(before, dropped, after) := partition value char in
    match case_inverted dropped with
    | Some replacement => Offer [before ++ replacement ++ after]
    | None => Raise UnhandledCasing
    end.

Definition swapped_casing (value : str) : trace :=
  for_each (swapped_casing_body value) (enumerate value) ∅.

End Generators.

(** ** Layout tables *)

Inductive Proximities := QWERTY_HORIZONTAL | QWERTY_VERTICAL.

(** One row of a table: a key and its neighbours, written as ASCII text. *)
Definition key (k neighbours : string) : N * list N :=
  (default 0%N (head (py k)), py neighbours).

Definition qwerty_horizontal_items : list (N * list N) :=
  [ key "q" "w"; key "w" "qe"; key "e" "wr"; key "r" "et"; key "t" "ry";
    key "y" "tu"; key "u" "yi"; key "i" "uo"; key "o" "ip"; key "p" "o";
    key "a" "s"; key "s" "ad"; key "d" "sf"; key "f" "dg"; key "g" "fh";
    key "h" "gj"; key "j" "hk"; key "k" "jl"; key "l" "k";
    key "z" "x"; key "x" "zc"; key "c" "xv"; key "v" "cb"; key "b" "vn";
    key "n" "bm"; key "m" "n" ].

Definition qwerty_vertical_items : list (N * list N) :=
  [ key "q" "a"; key "w" "as"; key "e" "sd"; key "r" "df"; key "t" "fg";
    key "y" "gh"; key "u" "hj"; key "i" "jk"; key "o" "kl"; key "p" "l";
    key "a" "qwz"; key "s" "wezx"; key "d" "erxc"; key "f" "rtcv";
    key "g" "tyvb"; key "h" "yubn"; key "j" "uinm"; key "k" "iom";
    key "l" "op";
    key "z" "as"; key "x" "sd"; key "c" "df"; key "v" "fg"; key "b" "gh";
    key "n" "hj"; key "m" "jk" ].

Definition items (layout : Proximities) : list (N * list N) :=
  match layout with
  | QWERTY_HORIZONTAL => qwerty_horizontal_items
  | QWERTY_VERTICAL => qwerty_vertical_items
  end.

(** [layout.value], the mapping itself. *)
Definition value_of (layout : Proximities) : gmap N (list N) :=
  list_to_map (items layout).

Section Combinators.

Variable ucd : Ucd.

(** *** proximity_typo *)

Definition proximity_typo_body (layout : Proximities) (value : str)
    (item : nat * N) : step :=
  let '(position, letter) := item in
  let '(before, dropped, after) := partition value letter in
  if isspace ucd [letter] then Raise WhitespaceError
  else
    match value_of layout !! letter with
    | None => Raise (UnsupportedCharacter value)
    | Some neighbours =>
        Offer ((λ replacement_letter, before ++ [replacement_letter] ++ after)
               <$> neighbours)
    end.

Definition proximity_typo (layout : Proximities) (value : str) : trace :=
  for_each (proximity_typo_body layout value) (enumerate value) ∅.

Definition horizontal_proximity_typo : str → trace :=
  proximity_typo QWERTY_HORIZONTAL.
Definition vertical_proximity_typo : str → trace :=
  proximity_typo QWERTY_VERTICAL.

(** *** multiple *)

(** The outer loop of [multiple].  The inner loop drains [handler(value)]:
    each value it yields passes the shared tail, and an exception it raises
    ends the whole run. *)
Fixpoint multiple_loop (value : str) (handlers : list (str → trace))
    (seen : gset str) : trace :=
  match handlers with
  | [] => Trace [] None
  | handler :: rest =>
      let typos := handler value in
      let '(out, seen') := emit seen (yields typos) in
      match raised typos with
      | Some e => Trace out (Some e)
      | None =>
          let t := multiple_loop value rest seen' in
          Trace (out ++ yields t) (raised t)
      end
  end.

Definition multiple (value : str) (handlers : list (str → trace)) : trace :=
  multiple_loop value handlers ∅.

Definition common_handlers : list (str → trace) :=
  [dropped_letter ucd; swapped_letter ucd; horizontal_proximity_typo].

Definition mix_handlers : list (str → trace) :=
  [dropped_letter ucd; swapped_letter ucd; horizontal_proximity_typo;
   vertical_proximity_typo].

Definition common (value : str) : trace := multiple value common_handlers.
Definition mix (value : str) : trace := multiple value mix_handlers.
Definition aggregate := mix.
Definition amalgam := mix.
Definition solution := mix.

End Combinators.

(** ** The command-line script

    The block under [if __name__ == "__main__"], for the word given on the
    command line and the set of words read from [/usr/share/dict/words]
    (empty when the file is missing or unreadable).  The embedding keeps what
    the script computes, which is also what it prints: the total, the
    clashes and the alternation.  The formatted writes themselves are left
    out.  The script lowercases whole strings; where it ends with exit code 0
    they hold lowercase ASCII letters only, and mapping character by
    character is exact. *)

Section Script.

Variable ucd : Ucd.
Variable default_words : gset str.

(** The state of the loop over [common(args.word)]: [index] counts from 1. *)
Record tally := Tally {
  index : nat;
  clashes : gset str;
  variations : list str;
}.

Definition tally_step (t : tally) (variation : str) : tally :=
  {| index := S (index t);
     clashes :=
       if bool_decide (default_words ≠ ∅)
          && bool_decide (lower ucd variation ∈ default_words)
          && bool_decide (1 < length variation)
       then {[variation]} ∪ clashes t
       else clashes t;
     variations :=
       if bool_decide (variation ≠ []) then variations t ++ [variation]
       else variations t |}.

(** [_by_length_then_similarity(v, original)]: [v[0]] and [original[0]]
    raise on an empty string. *)
Definition by_length_then_similarity (original v : str)
    : exn + (nat * bool * bool) :=
  match v, original with
  | c :: _, o :: _ =>
      inr (length v,
           bool_decide ((list_to_set (lower ucd v) : gset N)
                        = list_to_set (lower ucd original)),
           bool_decide (c = o))
  | _, _ => inl IndexError
  end.

(** The order of the keys: tuples compare component by component from the
    left, [False] below [True]. *)
Definition bool_lt (a b : bool) : bool := negb a && b.

Definition key_lt (a b : nat * bool * bool) : bool :=
  let '(n1, s1, f1) := a in
  let '(n2, s2, f2) := b in
  if bool_decide (n1 = n2)
  then if bool_decide (s1 = s2) then bool_lt f1 f2 else bool_lt s1 s2
  else bool_decide (n1 < n2).

(** [sorted(variations, key=..., reverse=True)]: the keys are computed first,
    one call per element; the sort is by key from the greatest down and
    stable, elements with equal keys staying in their order. *)
Fixpoint keyed {K} (key : str → exn + K) (l : list str) : exn + list (K * str) :=
  match l with
  | [] => inr []
  | v :: rest =>
      match key v with
      | inl e => inl e
      | inr k =>
          match keyed key rest with
          | inl e => inl e
          | inr more => inr ((k, v) :: more)
          end
      end
  end.

Fixpoint insert_reverse {K} (lt : K → K → bool) (x : K * str)
    (l : list (K * str)) : list (K * str) :=
  match l with
  | [] => [x]
  | y :: rest =>
      if lt x.1 y.1 then y :: insert_reverse lt x rest else x :: y :: rest
  end.

Definition sorted_reverse {K} (lt : K → K → bool) (key : str → exn + K)
    (l : list str) : exn + list str :=
  match keyed key l with
  | inl e => inl e
  | inr decorated => inr (snd <$> foldr (insert_reverse lt) [] decorated)
  end.

(** [sep.join(parts)]. *)
Fixpoint join (sep : str) (parts : list str) : str :=
  match parts with
  | [] => []
  | [part] => part
  | part :: rest => part ++ sep ++ join sep rest
  end.

(** How the script ends: [sys.exit(1)] for an empty word, an exception that
    nothing catches, or [sys.exit(0)] after the total, the clashes and, when
    there is a non-empty variation, the alternation were printed. *)
Inductive outcome :=
  | Exit1
  | Uncaught (e : exn)
  | Exit0 (total : nat) (clashing : gset str) (alternations : option str).

Definition main (word : str) : outcome :=
  if bool_decide (word = []) then Exit1
  else
    let run := common ucd word in
    match raised run with
    | Some e => Uncaught e
    | None =>
        let t := foldl tally_step (Tally 0 ∅ []) (yields run) in
        match variations t with
        | [] => Exit0 (index t) (clashes t) None
        | _ =>
            match sorted_reverse key_lt (by_length_then_similarity word)
                    (variations t) with
            | inl e => Uncaught e
            | inr ordered =>
                Exit0 (index t) (clashes t) (Some (join (py "|") ordered))
            end
        end
    end.

End Script.

(** ** The interpreter's character database, in part

    CPython's tables on Basic Latin and the Latin-1 Supplement
    (U+0000 to U+00FF) and on U+0131, LATIN SMALL LETTER DOTLESS I.  Other code
    points are outside this fragment: nothing below is stated about them. *)

Definition in_range (lo hi c : N) : bool := ((lo <=? c) && (c <=? hi))%N.

Definition py_isspace (c : N) : bool :=
  in_range 0x09 0x0d c || in_range 0x1c 0x20 c
  || bool_decide (c = 0x85%N) || bool_decide (c = 0xa0%N).

Definition py_islower (c : N) : bool :=
  in_range 0x61 0x7a c
  || bool_decide (c = 0xaa%N) || bool_decide (c = 0xb5%N)
  || bool_decide (c = 0xba%N)
  || (in_range 0xdf 0xff c && negb (bool_decide (c = 0xf7%N)))
  || bool_decide (c = 0x131%N).

Definition py_isupper (c : N) : bool :=
  in_range 0x41 0x5a c
  || (in_range 0xc0 0xde c && negb (bool_decide (c = 0xd7%N))).

Definition py_istitle (c : N) : bool := false.

Definition py_upper (c : N) : str :=
  if in_range 0x61 0x7a c then [(c - 0x20)%N]
  else if bool_decide (c = 0xb5%N) then [0x39c%N]
  else if bool_decide (c = 0xdf%N) then [0x53%N; 0x53%N]
  else if bool_decide (c = 0xff%N) then [0x178%N]
  else if in_range 0xe0 0xfe c && negb (bool_decide (c = 0xf7%N))
       then [(c - 0x20)%N]
  else if bool_decide (c = 0x131%N) then [0x49%N]
  else [c].

Definition py_lower (c : N) : str :=
  if in_range 0x41 0x5a c then [(c + 0x20)%N]
  else if in_range 0xc0 0xde c && negb (bool_decide (c = 0xd7%N))
       then [(c + 0x20)%N]
  else [c].

Definition cpython : Ucd := {|
  ch_isspace := py_isspace;
  ch_islower := py_islower;
  ch_isupper := py_isupper;
  ch_istitle := py_istitle;
  ch_upper := py_upper;
  ch_lower := py_lower;
|}.

(** * Specification vocabulary *)

(** ** Keeping first occurrences

    [first_seen l] is [l] with every value kept at its first occurrence only:
    what a consumer sees of a sequence that is filtered through a set of the
    values already seen. *)

Fixpoint first_seen (l : list str) : list str :=
  match l with
  | [] => []
  | x :: rest => x :: filter (λ y, y ≠ x) (first_seen rest)
  end.

(** What a loop offers to the shared tail in all, and how it stops. *)
Fixpoint offered (steps : list step) : list str * option exn :=
  match steps with
  | [] => ([], None)
  | Raise e :: _ => ([], Some e)
  | Break :: _ => ([], None)
  | Offer new_values :: rest =>
      let '(more, r) := offered rest in (new_values ++ more, r)
  end.

(** The token contains a whitespace character. *)
Definition has_whitespace (ucd : Ucd) (value : str) : bool :=
  existsb (ch_isspace ucd) value.

(** The token with the characters at positions [i] and [i + 1] exchanged. *)
Definition transposed (value : str) (i : nat) : str :=
  match value !! i, value !! S i with
  | Some a, Some b => <[i:=b]> (<[S i:=a]> value)
  | _, _ => value
  end.

(** The token with the character at position [i] replaced by the string [r]. *)
Definition replaced (value : str) (i : nat) (r : str) : str :=
  take i value ++ r ++ drop (S i) value.

(** The handlers run on the token in list order, each drained in full before
    the next one starts; the run ends with the first handler that raises. *)
Fixpoint drained (value : str) (handlers : list (str → trace))
    : list str * option exn :=
  match handlers with
  | [] => ([], None)
  | handler :: rest =>
      match raised (handler value) with
      | Some e => (yields (handler value), Some e)
      | None =>
          let '(more, r) := drained value rest in
          (yields (handler value) ++ more, r)
      end
  end.

(** The token consists of the ASCII letters [a] to [z] only. *)
Definition lowercase_ascii_only (value : str) : Prop :=
  ∀ c, c ∈ value → (97 ≤ c ≤ 122)%N.

(** The token with the character [c] at position [i] replaced by its
    case-inverted form. *)
Definition case_variant (ucd : Ucd) (value : str) (i : nat) (c : N) : str :=
  replaced value i (default [c] (case_inverted ucd [c])).

(** A lowercase character [l] and an uppercase character [u] that are each
    other's image under [upper] and [lower]. *)
Definition simple_case_pair (ucd : Ucd) (l u : N) : Prop :=
  ch_islower ucd l = true ∧ ch_upper ucd l = [u]
  ∧ ch_isupper ucd u = true ∧ ch_islower ucd u = false
  ∧ ch_lower ucd u = [l].

(** The loops of [swapped_casing] and [proximity_typo] run on the first [n]
    positions of the token only. *)
Definition swapped_casing_positions (ucd : Ucd) (value : str) (n : nat) : trace :=
  for_each (swapped_casing_body ucd value) (take n (enumerate value)) ∅.

Definition proximity_typo_positions (ucd : Ucd) (layout : Proximities)
    (value : str) (n : nat) : trace :=
  for_each (proximity_typo_body ucd layout value) (take n (enumerate value)) ∅.

(** What an iteration offers, when it offers. *)
Definition offer_of {I} (body : I → step) (i : I) : list str :=
  match body i with
  | Offer new_values => new_values
  | _ => []
  end.

(** The number of runs of the token: maximal blocks of one repeated
    character. *)
Fixpoint runs (value : str) : nat :=
  match value with
  | [] => 0
  | c :: rest => (if decide (head rest = Some c) then 0 else 1) + runs rest
  end.

(** Two neighbouring positions of the token hold the same character. *)
Definition has_double (value : str) : Prop :=
  ∃ i a, value !! i = Some a ∧ value !! S i = Some a.

(** The token consists of ASCII letters, of either case, only. *)
Definition ascii_letters_only (value : str) : Prop :=
  ∀ c, c ∈ value → (65 ≤ c ≤ 90)%N ∨ (97 ≤ c ≤ 122)%N.

(** The keys of the script's sort as numbers, in the same order. *)
Definition key_code (k : nat * bool * bool) : nat :=
  4 * k.1.1 + (if k.1.2 then 2 else 0) + (if k.2 then 1 else 0).

(** The variation is a word of the dictionary and longer than one
    character. *)
Definition clash (ucd : Ucd) (default_words : gset str) (variation : str) : Prop :=
  lower ucd variation ∈ default_words ∧ 1 < length variation.

(** * Verification *)

(** ** Keeping first occurrences *)

Lemma elem_of_first_seen x l : x ∈ first_seen l ↔ x ∈ l.
Proof.
  induction l as [|y l IH]; simpl; [done|].
  rewrite !elem_of_cons, list_elem_of_filter, IH.
  destruct (decide (x = y)); naive_solver.
Qed.

Lemma NoDup_first_seen l : NoDup (first_seen l).
Proof.
  induction l as [|y l IH]; simpl; [constructor|].
  constructor; [|by apply NoDup_filter].
  rewrite list_elem_of_filter. naive_solver.
Qed.

Lemma length_first_seen l : length (first_seen l) ≤ length l.
Proof.
  induction l as [|y l IH]; simpl; [done|].
  pose proof (length_filter (λ z, z ≠ y) (first_seen l)). lia.
Qed.

Lemma filter_all (P : str → Prop) `{!∀ x, Decision (P x)} (l : list str) :
  (∀ x, P x) → filter P l = l.
Proof.
  intros HP. induction l as [|y l IH]; [done|].
  rewrite filter_cons_True by done. by rewrite IH.
Qed.

Lemma first_seen_app l1 l2 :
  first_seen (l1 ++ l2)
  = first_seen l1 ++ filter (λ y, y ∉ l1) (first_seen l2).
Proof.
  induction l1 as [|x l1 IH]; simpl.
  - rewrite filter_all; [done|]. intros y. apply not_elem_of_nil.
  - rewrite IH, filter_app, list_filter_filter. do 2 f_equal.
    apply list_filter_iff. intros y. rewrite not_elem_of_cons. naive_solver.
Qed.

Lemma first_seen_NoDup l : NoDup l → first_seen l = l.
Proof.
  induction 1 as [|x l Hx _ IH]; simpl; [done|].
  rewrite IH. f_equal. clear IH.
  induction l as [|y l IH]; [done|].
  apply not_elem_of_cons in Hx as [??].
  rewrite filter_cons_True by done. f_equal. by apply IH.
Qed.

(** ** The shared tail and the loops *)

Lemma emit_spec seen new_values :
  emit seen new_values
  = (filter (λ y, y ∉ seen) (first_seen new_values),
     list_to_set new_values ∪ seen).
Proof.
  revert seen. induction new_values as [|x l IH]; intros seen; simpl.
  - f_equal. set_solver.
  - destruct (decide (x ∈ seen)) as [Hin|Hin].
    + rewrite IH, (filter_cons_False _ x) by (intros ?; done).
      rewrite list_filter_filter. f_equal; [|set_solver].
      apply list_filter_iff. intros y. split; [|naive_solver].
      intros Hy. split; [done|]. by intros ->.
    + rewrite IH, (filter_cons_True _ x) by done.
      rewrite list_filter_filter. f_equal; [|set_solver].
      f_equal. apply list_filter_iff. intros y. set_solver.
Qed.

Lemma for_each_seen {I} (body : I → step) items seen :
  for_each body items seen
  = Trace (filter (λ y, y ∉ seen) (first_seen (offered (body <$> items)).1))
          (offered (body <$> items)).2.
Proof.
  revert seen. induction items as [|i items IH]; intros seen; csimpl; [done|].
  destruct (body i) as [e| |vs]; csimpl; [done..|].
  rewrite emit_spec, IH.
  destruct (offered (body <$> items)) as [more r]; simpl.
  f_equal. rewrite first_seen_app, filter_app, !list_filter_filter.
  f_equal. apply list_filter_iff. intros y. set_solver.
Qed.

Lemma for_each_spec {I} (body : I → step) items :
  for_each body items ∅
  = Trace (first_seen (offered (body <$> items)).1)
          (offered (body <$> items)).2.
Proof. rewrite for_each_seen, filter_all; [done|]. set_solver. Qed.

Lemma offered_all {I} (body : I → step) (g : I → list str) items :
  (∀ i, i ∈ items → body i = Offer (g i)) →
  offered (body <$> items) = (items ≫= g, None).
Proof.
  induction items as [|i items IH]; intros Hb; csimpl; [done|].
  rewrite (Hb i) by left. rewrite IH; [done|].
  intros j Hj. apply Hb. by right.
Qed.

Lemma offered_until {I} (body : I → step) (g : I → list str) pre x post :
  (∀ i, i ∈ pre → body i = Offer (g i)) →
  offered (body <$> (pre ++ x :: post))
  = match body x with
    | Raise e => (pre ≫= g, Some e)
    | Break => (pre ≫= g, None)
    | Offer new_values =>
        let '(more, r) := offered (body <$> post) in
        ((pre ≫= g) ++ new_values ++ more, r)
    end.
Proof.
  induction pre as [|i pre IH]; intros Hb; csimpl.
  - destruct (body x); try done.
  - rewrite (Hb i) by left. rewrite IH by (intros j Hj; apply Hb; by right).
    destruct (body x); try done.
    destruct (offered (body <$> post)). by rewrite <-app_assoc.
Qed.

Lemma bind_singleton {I} (f : I → str) (l : list I) :
  l ≫= (λ i, [f i]) = f <$> l.
Proof. induction l as [|i l IH]; csimpl; [done|]. by rewrite IH. Qed.

Lemma offered_elem {I} (body : I → step) items v :
  v ∈ (offered (body <$> items)).1 →
  ∃ i new_values, i ∈ items ∧ body i = Offer new_values ∧ v ∈ new_values.
Proof.
  induction items as [|i items IH]; csimpl; [by intros ?%elem_of_nil|].
  destruct (body i) as [e| |vs] eqn:Hi; csimpl; [by intros ?%elem_of_nil..|].
  destruct (offered (body <$> items)) as [more r]; csimpl in *.
  intros [Hv|Hv]%elem_of_app.
  - exists i, vs. split_and!; [left|done..].
  - destruct (IH Hv) as (j & ws & ? & ? & ?).
    exists j, ws. split_and!; [by right|done..].
Qed.

Lemma offered_raised {I} (body : I → step) items e :
  (offered (body <$> items)).2 = Some e → ∃ i, i ∈ items ∧ body i = Raise e.
Proof.
  induction items as [|i items IH]; csimpl; [done|].
  destruct (body i) as [e'| |vs] eqn:Hi; csimpl; [|done|].
  - intros [= ->]. exists i. split; [left|done].
  - destruct (offered (body <$> items)) as [more r]; csimpl in *.
    intros Hr. destruct (IH Hr) as (j & ? & ?). exists j. split; [by right|done].
Qed.

(** A loop in which every iteration offers at most one value, and some
    iteration offers none, offers fewer values than it has iterations. *)
Lemma offered_length {I} (body : I → step) items :
  (∀ i new_values, i ∈ items → body i = Offer new_values → length new_values = 1) →
  length (offered (body <$> items)).1 ≤ length items
  ∧ ((∃ i, i ∈ items ∧ ∀ new_values, body i ≠ Offer new_values) →
     length (offered (body <$> items)).1 < length items).
Proof.
  induction items as [|i items IH]; intros Hone; csimpl.
  - split; [done|]. by intros (i & ?%elem_of_nil & _).
  - destruct (body i) as [e| |vs] eqn:Hi; csimpl; [split; intros; lia..|].
    destruct IH as [IH1 IH2]; [intros j ws ?; apply Hone; by right|].
    destruct (offered (body <$> items)) as [more r]; csimpl in *.
    rewrite length_app, (Hone i vs) by (done || left).
    split; [lia|]. intros (j & [->|Hj]%elem_of_cons & Hno).
    + by destruct (Hno vs).
    + assert (length more < length items) by (apply IH2; by exists j). lia.
Qed.

Lemma yields_elem {I} (body : I → step) items v :
  v ∈ yields (for_each body items ∅) →
  ∃ i new_values, i ∈ items ∧ body i = Offer new_values ∧ v ∈ new_values.
Proof.
  rewrite for_each_spec; simpl. rewrite elem_of_first_seen. apply offered_elem.
Qed.

(** ** Tokens, positions and whitespace *)

Lemma has_whitespace_false ucd value :
  has_whitespace ucd value = false ↔ ∀ c, c ∈ value → ch_isspace ucd c = false.
Proof.
  unfold has_whitespace. induction value as [|d value IH]; simpl.
  - split; [by intros _ c ?%elem_of_nil|done].
  - rewrite orb_false_iff, IH. split.
    + intros [??] c [->|?]%elem_of_cons; auto.
    + intros H. split; [apply H; left|intros c ?; apply H; by right].
Qed.

Lemma isspace_one ucd c : isspace ucd [c] = ch_isspace ucd c.
Proof. simpl. apply andb_true_r. Qed.

Lemma elem_of_range n i : i ∈ range n ↔ i < n.
Proof. unfold range. rewrite elem_of_seq. lia. Qed.

Lemma elem_of_enumerate (value : str) i c :
  (i, c) ∈ enumerate value ↔ value !! i = Some c.
Proof.
  unfold enumerate. rewrite elem_of_lookup_imap. split.
  - by intros (j & d & [= -> ->] & ?).
  - intros ?. by exists i, c.
Qed.

Lemma enumerate_app (pre post : str) :
  enumerate (pre ++ post)
  = enumerate pre ++ imap (λ n, pair (length pre + n)) post.
Proof. apply imap_app. Qed.

(** ** dropped_letter *)

Lemma dropped_at_delete (value : str) position :
  dropped_at value position = delete position value.
Proof.
  unfold dropped_at. by rewrite Nat.add_1_r, delete_take_drop.
Qed.

Lemma dropped_letter_body_offer ucd value position char :
  value !! position = Some char → ch_isspace ucd char = false →
  dropped_letter_body ucd value position = Offer [delete position value].
Proof.
  intros Hc Hs. unfold dropped_letter_body.
  by rewrite Hc, isspace_one, Hs, dropped_at_delete.
Qed.

Lemma dropped_letter_body_raise ucd value position char :
  value !! position = Some char → ch_isspace ucd char = true →
  dropped_letter_body ucd value position = Raise WhitespaceError.
Proof.
  intros Hc Hs. unfold dropped_letter_body. by rewrite Hc, isspace_one, Hs.
Qed.

Lemma dropped_letter_whitespace_free ucd value :
  has_whitespace ucd value = false →
  dropped_letter ucd value
  = Trace (first_seen ((λ i, delete i value) <$> seq 0 (length value))) None.
Proof.
  rewrite has_whitespace_false. intros Hws.
  unfold dropped_letter. rewrite for_each_spec.
  rewrite (offered_all _ (λ i, [delete i value])); [by rewrite bind_singleton|].
  intros i [c Hc]%elem_of_range%lookup_lt_is_Some.
  eapply dropped_letter_body_offer; [done|].
  apply Hws. by eapply list_elem_of_lookup_2.
Qed.

Lemma length_delete_lt (value : str) i :
  i < length value → length (delete i value) = length value - 1.
Proof.
  intros Hi%lookup_lt_is_Some. by apply length_delete.
Qed.

(** C5.  On a token without whitespace [dropped_letter] returns normally and
    yields, position by position from the left, the token with the character
    at that position removed, a repeated result being kept at its first
    occurrence only: at most [n] variants for a token of length [n], each of
    length [n - 1].  ["cat"] gives ["at"], ["ct"], ["ca"] and ["a"] gives the
    empty string alone. *)
Theorem dropped_letter_variants :
  (∀ ucd value,
     has_whitespace ucd value = false →
     dropped_letter ucd value
     = Trace (first_seen ((λ i, delete i value) <$> seq 0 (length value))) None
     ∧ length (yields (dropped_letter ucd value)) ≤ length value
     ∧ (∀ v, v ∈ yields (dropped_letter ucd value) →
          length v = length value - 1))
  ∧ dropped_letter cpython (py "cat") = Trace [py "at"; py "ct"; py "ca"] None
  ∧ dropped_letter cpython (py "a") = Trace [py ""] None.
Proof.
  split; [|by vm_compute].
  intros ucd value Hws. rewrite (dropped_letter_whitespace_free _ _ Hws); simpl.
  split_and!; [done| |].
  - etrans; [apply length_first_seen|]. by rewrite length_fmap, length_seq.
  - intros v (i & -> & Hi)%elem_of_first_seen%list_elem_of_fmap.
    apply length_delete_lt. apply elem_of_seq in Hi. lia.
Qed.

Lemma dropped_letter_variants_witness :
  has_whitespace cpython (py "noon") = false
  ∧ yields (dropped_letter cpython (py "noon"))
    = [py "oon"; py "non"; py "noo"].
Proof.
  split; [reflexivity|].
  destruct (proj1 dropped_letter_variants cpython (py "noon") eq_refl) as [-> _].
  reflexivity.
Defined.

(** ** swapped_letter *)

Lemma swapped_at_transposed (value : str) i a b :
  value !! i = Some a → value !! (i + 1) = Some b →
  swapped_at value i a b = transposed value i.
Proof.
  rewrite Nat.add_1_r. intros Ha Hb. unfold swapped_at, transposed.
  rewrite Ha, Hb.
  pose proof (lookup_lt_Some _ _ _ Hb) as Hlt.
  rewrite (insert_take_drop (<[S i:=a]> value)) by (rewrite length_insert; lia).
  rewrite (insert_take_drop value (S i)) by done.
  rewrite take_app_le, take_take by (rewrite length_take; lia).
  rewrite drop_app_length' by (rewrite length_take; lia).
  replace (i `min` S i) with i by lia.
  by replace (i + 2) with (S (S i)) by lia.
Qed.

Lemma length_transposed (value : str) i :
  length (transposed value i) = length value.
Proof.
  unfold transposed. destruct (value !! i), (value !! S i); try done.
  by rewrite !length_insert.
Qed.

Lemma swapped_letter_body_offer ucd value i a b :
  value !! i = Some a → value !! (i + 1) = Some b →
  ch_isspace ucd a = false → ch_isspace ucd b = false →
  swapped_letter_body ucd value i = Offer [transposed value i].
Proof.
  intros Ha Hb Hsa Hsb. unfold swapped_letter_body.
  by rewrite Ha, Hb, !isspace_one, Hsa, Hsb, (swapped_at_transposed _ _ _ _ Ha Hb).
Qed.

Lemma swapped_letter_body_raise ucd value i a b :
  value !! i = Some a → value !! (i + 1) = Some b →
  ch_isspace ucd a || ch_isspace ucd b = true →
  swapped_letter_body ucd value i = Raise WhitespaceError.
Proof.
  intros Ha Hb Hs. unfold swapped_letter_body.
  by rewrite Ha, Hb, !isspace_one, Hs.
Qed.

Lemma swapped_letter_body_break ucd value i a :
  value !! i = Some a → value !! (i + 1) = None →
  swapped_letter_body ucd value i = Break.
Proof. intros Ha Hb. unfold swapped_letter_body. by rewrite Ha, Hb. Qed.

Lemma swapped_letter_body_inv ucd value i new_values :
  swapped_letter_body ucd value i = Offer new_values →
  S i < length value ∧ new_values = [transposed value i].
Proof.
  unfold swapped_letter_body.
  destruct (value !! i) as [a|] eqn:Ha; [|done].
  destruct (value !! (i + 1)) as [b|] eqn:Hb; [|done].
  destruct (_ || _); [done|]. intros [= <-].
  split; [apply lookup_lt_Some in Hb; lia|].
  by rewrite (swapped_at_transposed _ _ _ _ Ha Hb).
Qed.

Lemma swapped_letter_last ucd value :
  0 < length value →
  swapped_letter_body ucd value (length value - 1) = Break.
Proof.
  intros Hn.
  destruct (lookup_lt_is_Some_2 value (length value - 1)) as [a Ha]; [lia|].
  eapply swapped_letter_body_break; [done|].
  apply lookup_ge_None. lia.
Qed.

Lemma swapped_letter_whitespace_free ucd value :
  has_whitespace ucd value = false →
  swapped_letter ucd value
  = Trace (first_seen (transposed value <$> seq 0 (length value - 1))) None.
Proof.
  rewrite has_whitespace_false. intros Hws.
  unfold swapped_letter. rewrite for_each_spec.
  destruct (decide (length value = 0)) as [Hn|Hn]; [by rewrite Hn|].
  unfold range. replace (length value) with ((length value - 1) + 1) at 1 2 by lia.
  rewrite seq_app; simpl.
  rewrite (offered_until _ (λ i, [transposed value i])).
  - rewrite swapped_letter_last by lia. by rewrite bind_singleton.
  - intros i Hi. apply elem_of_seq in Hi.
    destruct (lookup_lt_is_Some_2 value i) as [a Ha]; [lia|].
    destruct (lookup_lt_is_Some_2 value (i + 1)) as [b Hb]; [lia|].
    eapply swapped_letter_body_offer; [done..| |];
      apply Hws; by eapply list_elem_of_lookup_2.
Qed.

(** C6.  [swapped_letter] yields fewer variants than the token has
    characters, each of the token's length and each the token with one pair of
    neighbours exchanged; a token of at most one character gives no variant
    and the generator returns normally.  On a token without whitespace the
    variants are those of all adjacent pairs, from the left, first occurrences
    only.  ["cat"] gives ["act"], ["cta"]. *)
Theorem swapped_letter_variants :
  (∀ ucd value,
     length (yields (swapped_letter ucd value)) ≤ length value - 1
     ∧ (∀ v, v ∈ yields (swapped_letter ucd value) →
          length v = length value
          ∧ ∃ i, S i < length value ∧ v = transposed value i)
     ∧ (length value ≤ 1 → swapped_letter ucd value = Trace [] None)
     ∧ (has_whitespace ucd value = false →
        swapped_letter ucd value
        = Trace (first_seen (transposed value <$> seq 0 (length value - 1)))
                None))
  ∧ swapped_letter cpython (py "cat") = Trace [py "act"; py "cta"] None.
Proof.
  split; [|by vm_compute].
  intros ucd value. split_and!.
  - unfold swapped_letter. rewrite for_each_spec; simpl.
    etrans; [apply length_first_seen|].
    destruct (offered_length (swapped_letter_body ucd value)
                (range (length value))) as [Hle Hlt].
    { by intros i vs _ [_ ->]%swapped_letter_body_inv. }
    unfold range in *. rewrite length_seq in *.
    destruct (decide (length value = 0)) as [Hn|Hn]; [lia|].
    cut (length (offered (swapped_letter_body ucd value <$> seq 0 (length value))).1
         < length value); [lia|].
    apply Hlt. exists (length value - 1). split; [apply elem_of_seq; lia|].
    intros vs. rewrite swapped_letter_last by lia. done.
  - intros v (i & vs & _ & [Hi ->]%swapped_letter_body_inv & Hv)%yields_elem.
    apply list_elem_of_singleton in Hv as ->.
    split; [apply length_transposed|by exists i].
  - destruct value as [|a [|b value]]; simpl; [done| |lia].
    intros _. by vm_compute.
  - apply swapped_letter_whitespace_free.
Qed.

Lemma swapped_letter_variants_witness :
  swapped_letter cpython (py "noon")
  = Trace [py "onon"; py "noon"; py "nono"] None.
Proof.
  destruct (proj1 swapped_letter_variants cpython (py "noon"))
    as (_ & _ & _ & ->); reflexivity.
Defined.

(** ** multiple and the presets *)

Lemma multiple_loop_seen value handlers seen :
  multiple_loop value handlers seen
  = Trace (filter (λ y, y ∉ seen) (first_seen (drained value handlers).1))
          (drained value handlers).2.
Proof.
  revert seen. induction handlers as [|h handlers IH]; intros seen; simpl; [done|].
  rewrite emit_spec. destruct (raised (h value)) as [e|]; simpl; [done|].
  rewrite IH. destruct (drained value handlers) as [more r]; simpl.
  f_equal. rewrite first_seen_app, filter_app, !list_filter_filter.
  f_equal. apply list_filter_iff. intros y. set_solver.
Qed.

Lemma multiple_spec value handlers :
  multiple value handlers
  = Trace (first_seen (drained value handlers).1) (drained value handlers).2.
Proof.
  unfold multiple. rewrite multiple_loop_seen, filter_all; [done|]. set_solver.
Qed.

Lemma drained_all value handlers :
  (∀ h, h ∈ handlers → raised (h value) = None) →
  drained value handlers = (handlers ≫= (λ h, yields (h value)), None).
Proof.
  induction handlers as [|h handlers IH]; intros Hr; csimpl; [done|].
  rewrite (Hr h) by left. rewrite IH; [done|]. intros ??. apply Hr. by right.
Qed.

Lemma drained_elem value handlers v :
  v ∈ (drained value handlers).1 → ∃ h, h ∈ handlers ∧ v ∈ yields (h value).
Proof.
  induction handlers as [|h handlers IH]; simpl; [by intros ?%elem_of_nil|].
  destruct (raised (h value)); simpl.
  - intros ?. exists h. split; [left|done].
  - destruct (drained value handlers) as [more r]; simpl in *.
    intros [?|Hv]%elem_of_app; [exists h; split; [left|done]|].
    destruct (IH Hv) as (h' & ? & ?). exists h'. split; [by right|done].
Qed.

(** C3.  [multiple] runs the handlers in list order, draining each before the
    next, and yields every distinct value once, at its first occurrence in
    that combined sequence: a value that an earlier handler produced is not
    yielded again for a later one.  The output of [common] has no repeated
    string and each of its strings is an output of [dropped_letter],
    [swapped_letter] or the horizontal [proximity_typo]. *)
Theorem multiple_first_seen :
  (∀ value handlers,
     multiple value handlers
     = Trace (first_seen (drained value handlers).1) (drained value handlers).2
     ∧ NoDup (yields (multiple value handlers))
     ∧ ((∀ h, h ∈ handlers → raised (h value) = None) →
        multiple value handlers
        = Trace (first_seen (handlers ≫= (λ h, yields (h value)))) None))
  ∧ (∀ ucd value,
       NoDup (yields (common ucd value))
       ∧ ∀ v, v ∈ yields (common ucd value) →
           v ∈ yields (dropped_letter ucd value)
           ∨ v ∈ yields (swapped_letter ucd value)
           ∨ v ∈ yields (horizontal_proximity_typo ucd value)).
Proof.
  split.
  - intros value handlers. rewrite multiple_spec. split_and!; [done| |].
    + apply NoDup_first_seen.
    + intros Hr. by rewrite (drained_all _ _ Hr).
  - intros ucd value. unfold common. rewrite multiple_spec.
    cbn [yields]. split; [apply NoDup_first_seen|].
    intros v (h & Hh & Hv)%elem_of_first_seen%drained_elem.
    unfold common_handlers in Hh. set_solver.
Qed.

Lemma multiple_first_seen_witness :
  multiple (py "aa") [dropped_letter cpython; dropped_letter cpython;
                      swapped_letter cpython]
  = Trace [py "a"; py "aa"] None.
Proof.
  destruct (proj1 multiple_first_seen (py "aa")
              [dropped_letter cpython; dropped_letter cpython;
               swapped_letter cpython]) as (_ & _ & H).
  rewrite H; [reflexivity|]. intros h Hh. repeat (apply elem_of_cons in Hh as [->|Hh]; [reflexivity|]).
  by apply elem_of_nil in Hh.
Defined.

(** The output of [common] is the beginning of the output of [mix]. *)
Lemma common_prefix_of_mix ucd value :
  raised (common ucd value) = None →
  yields (common ucd value) `prefix_of` yields (mix ucd value).
Proof.
  unfold common, mix, common_handlers, mix_handlers.
  rewrite !multiple_spec; simpl.
  destruct (raised (dropped_letter ucd value)); [done|].
  destruct (raised (swapped_letter ucd value)); [done|].
  destruct (raised (horizontal_proximity_typo ucd value)); [done|].
  intros _. rewrite !app_nil_r.
  set (l := yields (dropped_letter ucd value) ++ _ ++ _).
  assert (∀ l', first_seen l `prefix_of` first_seen (l ++ l')) as Hpre.
  { intros l'. rewrite first_seen_app. by apply prefix_app_r. }
  destruct (raised (vertical_proximity_typo ucd value)); simpl;
    rewrite ?app_nil_r;
    (etrans; [apply (Hpre (yields (vertical_proximity_typo ucd value)))|]);
    unfold l; by rewrite <-!app_assoc.
Qed.

Lemma common_raises_mix ucd value :
  raised (common ucd value) ≠ None → mix ucd value = common ucd value.
Proof.
  unfold common, mix, common_handlers, mix_handlers.
  rewrite !multiple_spec; simpl.
  destruct (raised (dropped_letter ucd value)); [done|].
  destruct (raised (swapped_letter ucd value)); [done|].
  destruct (raised (horizontal_proximity_typo ucd value)); [done|].
  by destruct (raised (vertical_proximity_typo ucd value)).
Qed.

(** ** find and partition *)

Lemma find_Some (value : str) c i :
  find value c = Some i ↔ value !! i = Some c ∧ c ∉ take i value.
Proof.
  revert i. induction value as [|d value IH]; intros i; simpl.
  - split; [done|]. by intros [? _].
  - destruct (decide (d = c)) as [->|Hd].
    + split.
      * intros [= <-]. split; [done|]. apply not_elem_of_nil.
      * destruct i as [|i]; [done|]. simpl. intros [_ []]. left.
    + destruct i as [|i]; simpl.
      * split; [by destruct (find value c)|]. by intros [[= ->] _].
      * specialize (IH i). rewrite not_elem_of_cons.
        destruct (find value c); simpl in *; naive_solver.
Qed.

Lemma find_elem (value : str) c : c ∈ value → is_Some (find value c).
Proof.
  induction value as [|d value IH]; simpl; [by intros ?%elem_of_nil|].
  destruct (decide (d = c)); [by eexists|].
  intros [->|Hc]%elem_of_cons; [done|].
  destruct (IH Hc) as [i ->]. by eexists.
Qed.

Lemma partition_first (value : str) i c :
  value !! i = Some c → c ∉ take i value →
  partition value c = (take i value, [c], drop (S i) value).
Proof.
  intros Hc Hn. unfold partition.
  by rewrite (proj2 (find_Some value c i) (conj Hc Hn)).
Qed.

Lemma partition_elem (value : str) c :
  c ∈ value →
  ∃ i, value !! i = Some c ∧ (c ∉ take i value)
       ∧ partition value c = (take i value, [c], drop (S i) value).
Proof.
  intros [i Hi]%find_elem. exists i.
  apply find_Some in Hi as [??]. split_and!; [done..|by apply partition_first].
Qed.

(** ** The layout tables *)

Lemma value_of_items layout c neighbours :
  value_of layout !! c = Some neighbours → (c, neighbours) ∈ items layout.
Proof. apply elem_of_list_to_map_2. Qed.

Lemma neighbour_differs layout c neighbours r :
  value_of layout !! c = Some neighbours → r ∈ neighbours → r ≠ c.
Proof.
  intros Hc%value_of_items Hr ->.
  assert (Forall (λ kn : N * list N, kn.1 ∉ kn.2) (items layout)) as Hall.
  { destruct layout; apply (bool_decide_unpack _); by vm_compute. }
  rewrite Forall_forall in Hall. by apply (Hall _ Hc).
Qed.

Lemma lowercase_ascii (c : N) :
  (97 ≤ c ≤ 122)%N → c ∈ (N.of_nat <$> seq 97 26).
Proof.
  intros Hc. apply list_elem_of_fmap. exists (N.to_nat c).
  split; [by rewrite N2Nat.id|]. apply elem_of_seq. lia.
Qed.

Lemma layout_covers layout c :
  (97 ≤ c ≤ 122)%N → is_Some (value_of layout !! c).
Proof.
  intros Hc%lowercase_ascii.
  assert (Forall (λ c, is_Some (value_of layout !! c)) (N.of_nat <$> seq 97 26))
    as Hall.
  { destruct layout; apply (bool_decide_unpack _); by vm_compute. }
  rewrite Forall_forall in Hall. by apply Hall.
Qed.

(** ** proximity_typo *)

Lemma replace_first (value : str) i c r :
  value !! i = Some c →
  take i value ++ [r] ++ drop (S i) value = <[i:=r]> value.
Proof.
  intros Hc%lookup_lt_Some. by rewrite insert_take_drop.
Qed.

Lemma proximity_typo_body_inv ucd layout value position letter new_values :
  letter ∈ value →
  proximity_typo_body ucd layout value (position, letter) = Offer new_values →
  ∃ i neighbours,
    value !! i = Some letter ∧ (letter ∉ take i value)
    ∧ ch_isspace ucd letter = false
    ∧ value_of layout !! letter = Some neighbours
    ∧ new_values = (λ r, <[i:=r]> value) <$> neighbours.
Proof.
  intros (i & Hi & Hfirst & Hp)%partition_elem. unfold proximity_typo_body.
  rewrite Hp, isspace_one.
  destruct (ch_isspace ucd letter) eqn:Hs; [done|].
  destruct (value_of layout !! letter) as [neighbours|] eqn:Hl; [|done].
  intros [= <-]. exists i, neighbours. split_and!; [done..|].
  apply list_fmap_ext. intros _ r _. by eapply replace_first.
Qed.

(** C7.  Every variant that [proximity_typo] yields, on any token and with
    either layout, has the length of the token and differs from the token at
    exactly one position. *)
Theorem proximity_typo_one_position ucd layout value v :
  v ∈ yields (proximity_typo ucd layout value) →
  length v = length value
  ∧ ∃ i, i < length value ∧ v !! i ≠ value !! i
         ∧ ∀ j, j ≠ i → v !! j = value !! j.
Proof.
  intros ([position letter] & vs & Hitem & Hbody & Hv)%yields_elem.
  apply elem_of_enumerate, list_elem_of_lookup_2 in Hitem.
  apply proximity_typo_body_inv in Hbody
    as (i & neighbours & Hi & _ & _ & Hl & ->); [|done].
  apply list_elem_of_fmap in Hv as (r & -> & Hr).
  pose proof (lookup_lt_Some _ _ _ Hi) as Hlt.
  split; [apply length_insert|]. exists i. split_and!; [done| |].
  - rewrite list_lookup_insert_eq, Hi by done.
    intros [= ->]. by eapply neighbour_differs.
  - intros j Hj. by rewrite list_lookup_insert_ne.
Qed.

Lemma proximity_typo_one_position_witness :
  length (py "cst") = length (py "cat")
  ∧ ∃ i, i < length (py "cat") ∧ py "cst" !! i ≠ py "cat" !! i
         ∧ ∀ j, j ≠ i → py "cst" !! j = py "cat" !! j.
Proof.
  apply (proximity_typo_one_position cpython QWERTY_HORIZONTAL).
  vm_compute. do 2 right. left.
Defined.

Lemma proximity_typo_body_raise ucd layout value position letter e :
  proximity_typo_body ucd layout value (position, letter) = Raise e →
  (ch_isspace ucd letter = true ∧ e = WhitespaceError)
  ∨ (ch_isspace ucd letter = false ∧ value_of layout !! letter = None
     ∧ e = UnsupportedCharacter value).
Proof.
  unfold proximity_typo_body. destruct (partition value letter) as [[??]?].
  rewrite isspace_one. destruct (ch_isspace ucd letter); [naive_solver|].
  destruct (value_of layout !! letter); naive_solver.
Qed.

Lemma proximity_typo_raised ucd layout value e :
  raised (proximity_typo ucd layout value) = Some e →
  ∃ letter, letter ∈ value
    ∧ ((ch_isspace ucd letter = true ∧ e = WhitespaceError)
       ∨ (value_of layout !! letter = None ∧ e = UnsupportedCharacter value)).
Proof.
  unfold proximity_typo. rewrite for_each_spec; simpl.
  intros ([position letter] & Hitem & Hbody)%offered_raised.
  apply elem_of_enumerate, list_elem_of_lookup_2 in Hitem.
  exists letter. split; [done|].
  apply proximity_typo_body_raise in Hbody. naive_solver.
Qed.

(** C10.  On a token of lowercase ASCII letters [proximity_typo] never raises
    the unsupported-character error, with either layout and whatever the
    character database: both tables have an entry for each of the 26
    letters.  With the interpreter's own database the run returns normally. *)
Theorem proximity_typo_lowercase_supported ucd layout value :
  lowercase_ascii_only value →
  (∀ c, (97 ≤ c ≤ 122)%N → is_Some (value_of layout !! c))
  ∧ (∀ culprit,
       raised (proximity_typo ucd layout value)
       ≠ Some (UnsupportedCharacter culprit))
  ∧ raised (proximity_typo cpython layout value) = None.
Proof.
  intros Hlow. split_and!.
  - intros c. apply layout_covers.
  - intros culprit (letter & Hin & [[_ [=]]|[Hnone _]])%proximity_typo_raised.
    destruct (layout_covers layout letter (Hlow _ Hin)) as [? Hsome].
    by rewrite Hsome in Hnone.
  - destruct (raised (proximity_typo cpython layout value)) as [e|] eqn:He;
      [exfalso|done].
    apply proximity_typo_raised in He as (letter & Hin & [[Hs _]|[Hnone _]]).
    + apply Hlow, lowercase_ascii in Hin.
      assert (Forall (λ c, ch_isspace cpython c = false) (N.of_nat <$> seq 97 26))
        as Hall by (apply (bool_decide_unpack _); by vm_compute).
      rewrite Forall_forall in Hall. by rewrite (Hall _ Hin) in Hs.
    + destruct (layout_covers layout letter (Hlow _ Hin)) as [? Hsome].
      by rewrite Hsome in Hnone.
Qed.

Lemma proximity_typo_lowercase_supported_witness :
  raised (proximity_typo cpython QWERTY_VERTICAL (py "qwerty")) = None.
Proof.
  apply (proximity_typo_lowercase_supported cpython QWERTY_VERTICAL (py "qwerty")).
  intros c Hc. vm_compute in Hc.
  repeat (apply elem_of_cons in Hc as [->|Hc]; [lia|]).
  by apply elem_of_nil in Hc.
Defined.

Lemma offered_stops {I} (body : I → step) items :
  (∀ i, i ∈ items → body i ≠ Break) →
  (∃ i, i ∈ items ∧ ∀ new_values, body i ≠ Offer new_values) →
  (offered (body <$> items)).2 ≠ None.
Proof.
  induction items as [|i items IH]; intros Hb (j & Hj & Hno); csimpl.
  - by apply elem_of_nil in Hj.
  - destruct (body i) as [e| |vs] eqn:Hi; csimpl; [done| |].
    + destruct (Hb i); [left|done].
    + assert (j ∈ items) as Hj'.
      { apply elem_of_cons in Hj as [->|?]; [by destruct (Hno vs)|done]. }
      destruct (offered (body <$> items)) as [more r] eqn:Ho; csimpl in *.
      apply IH; [intros k ?; apply Hb; by right|by exists j].
Qed.

Lemma proximity_typo_unsupported ucd layout value c :
  c ∈ value → value_of layout !! c = None →
  raised (proximity_typo ucd layout value) ≠ None.
Proof.
  intros [i Hi]%list_elem_of_lookup_1 Hnone.
  unfold proximity_typo. rewrite for_each_spec; simpl.
  apply offered_stops.
  - intros [position letter] _. unfold proximity_typo_body.
    destruct (partition value letter) as [[??]?].
    destruct (isspace ucd [letter]); [done|].
    by destruct (value_of layout !! letter).
  - exists (i, c). split; [by apply elem_of_enumerate|].
    intros vs. unfold proximity_typo_body.
    destruct (partition value c) as [[??]?].
    destruct (isspace ucd [c]); [done|]. by rewrite Hnone.
Qed.

Lemma horizontal_raises_common ucd value :
  raised (horizontal_proximity_typo ucd value) ≠ None →
  raised (common ucd value) ≠ None.
Proof.
  unfold common, common_handlers. rewrite multiple_spec; simpl.
  destruct (raised (dropped_letter ucd value)); [done|].
  destruct (raised (swapped_letter ucd value)); [done|].
  by destruct (raised (horizontal_proximity_typo ucd value)).
Qed.

(** C4.  Where [common] and [mix] both return normally, every variant of
    [common] is a variant of [mix] (the output of [common] is even the
    beginning of that of [mix]).  Where the horizontal [proximity_typo] does
    not apply to the token (it raises, as it does when some character has no
    entry in the table) the two presets give the same output, and so they do
    on the empty token. *)
Theorem mix_extends_common ucd value :
  (raised (common ucd value) = None → raised (mix ucd value) = None →
   yields (common ucd value) `prefix_of` yields (mix ucd value)
   ∧ ∀ v, v ∈ yields (common ucd value) → v ∈ yields (mix ucd value))
  ∧ (raised (horizontal_proximity_typo ucd value) ≠ None →
     mix ucd value = common ucd value)
  ∧ ((∃ c, c ∈ value ∧ value_of QWERTY_HORIZONTAL !! c = None) →
     mix ucd value = common ucd value)
  ∧ mix ucd [] = common ucd [].
Proof.
  split_and!.
  - intros Hc _. pose proof (common_prefix_of_mix ucd value Hc) as Hpre.
    split; [done|]. intros v Hv. destruct Hpre as [k ->].
    apply elem_of_app. by left.
  - intros Hh. by apply common_raises_mix, horizontal_raises_common.
  - intros (c & Hc & Hnone).
    apply common_raises_mix, horizontal_raises_common.
    by eapply proximity_typo_unsupported.
  - reflexivity.
Qed.

Lemma mix_extends_common_witness :
  yields (common cpython (py "ox")) `prefix_of` yields (mix cpython (py "ox"))
  ∧ mix cpython (py "o-x") = common cpython (py "o-x").
Proof.
  destruct (mix_extends_common cpython (py "ox")) as [H _].
  destruct (mix_extends_common cpython (py "o-x")) as (_ & H' & _).
  split; [by apply H|]. apply H'. by vm_compute.
Defined.

(** ** swapped_casing *)

Lemma swapped_casing_body_offer ucd value position i c r :
  value !! i = Some c → c ∉ take i value →
  ch_isspace ucd c = false → case_inverted ucd [c] = Some r →
  swapped_casing_body ucd value (position, c) = Offer [replaced value i r].
Proof.
  intros Hc Hfirst Hs Hr. unfold swapped_casing_body.
  by rewrite isspace_one, Hs, (partition_first _ _ _ Hc Hfirst), Hr.
Qed.

Lemma swapped_casing_body_offers ucd value position c :
  c ∈ value → ch_isspace ucd c = false → is_Some (case_inverted ucd [c]) →
  ∃ new_values, swapped_casing_body ucd value (position, c) = Offer new_values.
Proof.
  intros (i & Hi & Hfirst & _)%partition_elem Hs [r Hr].
  eexists. by eapply swapped_casing_body_offer.
Qed.

Lemma swapped_casing_body_raise ucd value position c :
  ch_isspace ucd c = true →
  swapped_casing_body ucd value (position, c) = Raise (WhitespaceErrorAt position).
Proof. intros Hs. unfold swapped_casing_body. by rewrite isspace_one, Hs. Qed.

Lemma offer_of_offers {I} (body : I → step) (items : list I) :
  (∀ i, i ∈ items → ∃ new_values, body i = Offer new_values) →
  ∀ i, i ∈ items → body i = Offer (offer_of body i).
Proof.
  intros H i Hin. destruct (H i Hin) as [vs Hi]. unfold offer_of. by rewrite Hi.
Qed.

Lemma for_each_offers_then {I} (body : I → step) pre x post new_values :
  (∀ i, i ∈ pre → ∃ vs, body i = Offer vs) →
  body x = Offer new_values →
  ∀ v, v ∈ new_values → v ∈ yields (for_each body (pre ++ x :: post) ∅).
Proof.
  intros Hoff Hx v Hv. pose proof (offer_of_offers _ _ Hoff) as Hpre.
  rewrite for_each_spec, (offered_until _ _ _ _ _ Hpre), Hx.
  destruct (offered (body <$> post)) as [more r]; simpl.
  apply elem_of_first_seen. rewrite !elem_of_app. auto.
Qed.

Lemma for_each_offers_then_raises {I} (body : I → step) pre x post e :
  (∀ i, i ∈ pre → ∃ vs, body i = Offer vs) →
  body x = Raise e →
  for_each body (pre ++ x :: post) ∅
  = Trace (yields (for_each body pre ∅)) (Some e)
  ∧ raised (for_each body pre ∅) = None.
Proof.
  intros Hoff Hx. pose proof (offer_of_offers _ _ Hoff) as Hpre.
  rewrite !for_each_spec, (offered_until _ _ _ _ _ Hpre), Hx.
  by rewrite (offered_all _ _ _ Hpre).
Qed.

Lemma NoDup_first_occurrence (value : str) i c :
  NoDup value → value !! i = Some c → c ∉ take i value.
Proof.
  intros Hnd Hc. rewrite <-(take_drop_middle _ _ _ Hc) in Hnd.
  apply NoDup_app in Hnd as (_ & Hdisj & _).
  intros Hin. apply (Hdisj _ Hin). left.
Qed.

Lemma enumerate_middle (value : str) i c :
  value !! i = Some c →
  enumerate value
  = enumerate (take i value)
    ++ (i, c) :: imap (λ n, pair (length (take i value) + S n)) (drop (S i) value).
Proof.
  intros Hc. rewrite <-(take_drop_middle _ _ _ Hc) at 1.
  rewrite enumerate_app, imap_cons. do 2 f_equal.
  rewrite length_take_le, Nat.add_0_r; [done|].
  apply lookup_lt_Some in Hc. lia.
Qed.

Lemma elem_of_enumerate_take (value : str) i j d :
  (j, d) ∈ enumerate (take i value) → d ∈ take i value.
Proof. intros ?%elem_of_enumerate. by eapply list_elem_of_lookup_2. Qed.

Lemma elem_of_take_value (value : str) i d : d ∈ take i value → d ∈ value.
Proof.
  intros Hd. rewrite <-(take_drop i value). apply elem_of_app. by left.
Qed.

Lemma bind_enumerate (f : nat → N → str) (value : str) :
  enumerate value ≫= (λ ic, [f ic.1 ic.2]) = imap f value.
Proof.
  rewrite (bind_singleton (λ ic : nat * N, f ic.1 ic.2)).
  unfold enumerate. rewrite fmap_imap. by apply imap_ext.
Qed.

(** C1, as the code has it.  On a token without whitespace, [swapped_casing]
    yields the token with the character at position [i] replaced by its
    case-inverted form whenever every earlier character is cased and the
    character at [i] does not occur earlier in the token.  On a token of
    pairwise distinct cased characters the output is exactly these variants,
    position by position from the left, first occurrences only. *)
Theorem swapped_casing_first_occurrences ucd value :
  has_whitespace ucd value = false →
  (∀ i c r,
     value !! i = Some c → c ∉ take i value →
     (∀ d, d ∈ take i value → is_Some (case_inverted ucd [d])) →
     case_inverted ucd [c] = Some r →
     replaced value i r ∈ yields (swapped_casing ucd value))
  ∧ (NoDup value →
     (∀ d, d ∈ value → is_Some (case_inverted ucd [d])) →
     swapped_casing ucd value
     = Trace (first_seen (imap (case_variant ucd value) value)) None).
Proof.
  rewrite has_whitespace_false. intros Hws. split.
  - intros i c r Hc Hfirst Hcased Hr. unfold swapped_casing.
    rewrite (enumerate_middle _ _ _ Hc).
    eapply for_each_offers_then; [| |left].
    + intros [j d] Hd%elem_of_enumerate_take.
      apply swapped_casing_body_offers; [|apply Hws|]; eauto using elem_of_take_value.
    + apply swapped_casing_body_offer; [done..| |done].
      apply Hws. by eapply list_elem_of_lookup_2.
  - intros Hnd Hcased. unfold swapped_casing. rewrite for_each_spec.
    rewrite (offered_all _ (λ ic, [case_variant ucd value ic.1 ic.2]));
      [by rewrite bind_enumerate|].
    intros [i c] Hc%elem_of_enumerate; simpl.
    pose proof (list_elem_of_lookup_2 _ _ _ Hc) as Hin.
    destruct (Hcased c Hin) as [r Hr].
    unfold case_variant. rewrite Hr; simpl.
    apply swapped_casing_body_offer; auto using NoDup_first_occurrence.
Qed.

Lemma swapped_casing_first_occurrences_witness :
  swapped_casing cpython (py "aB") = Trace [py "AB"; py "ab"] None.
Proof.
  destruct (swapped_casing_first_occurrences cpython (py "aB") eq_refl)
    as [_ H].
  rewrite H; [reflexivity| |].
  - apply (bool_decide_unpack _). by vm_compute.
  - intros d Hd. vm_compute in Hd.
    repeat (apply elem_of_cons in Hd as [->|Hd]; [by eexists|]).
    by apply elem_of_nil in Hd.
Defined.

(** C1 as it is stated fails.  In ["1a"] the second character is a letter,
    but the first has no case: the generator raises before it yields
    anything, and ["1A"] is not produced.  In ["aa"] the split is at the
    first [a] for both positions, and ["aA"] is not produced. *)
Lemma swapped_casing_counterexample :
  (has_whitespace cpython (py "1a") = false
   ∧ py "1a" !! 1 = Some 97%N
   ∧ case_inverted cpython [97%N] = Some (py "A")
   ∧ replaced (py "1a") 1 (py "A") = py "1A"
   ∧ swapped_casing cpython (py "1a") = Trace [] (Some UnhandledCasing)
   ∧ py "1A" ∉ yields (swapped_casing cpython (py "1a")))
  ∧ (has_whitespace cpython (py "aa") = false
     ∧ py "aa" !! 1 = Some 97%N
     ∧ replaced (py "aa") 1 (py "A") = py "aA"
     ∧ swapped_casing cpython (py "aa") = Trace [py "Aa"] None
     ∧ py "aA" ∉ yields (swapped_casing cpython (py "aa"))).
Proof.
  split; split_and!; try by vm_compute.
  - intros H. vm_compute in H. by apply elem_of_nil in H.
  - intros H. vm_compute in H. by apply list_elem_of_singleton in H.
Qed.

(** C9, as the code has it.  For either character of a simple case pair the
    case inversion of [swapped_casing], applied twice, gives the character
    back.  Every ASCII letter is in such a pair with its counterpart. *)
Theorem case_inverted_involutive :
  (∀ ucd l u c,
     simple_case_pair ucd l u → c = l ∨ c = u →
     ∃ r, case_inverted ucd [c] = Some r ∧ case_inverted ucd r = Some [c])
  ∧ (∀ c, (97 ≤ c ≤ 122)%N → simple_case_pair cpython c (c - 32)%N)
  ∧ (∀ c, (65 ≤ c ≤ 90)%N → simple_case_pair cpython (c + 32)%N c).
Proof.
  split_and!.
  - intros ucd l u c (Hl & Hlu & Hu & Hul & Hul') [->| ->].
    + exists [u]. unfold case_inverted, upper, lower; simpl.
      rewrite Hl, Hlu; simpl. by rewrite Hul, Hu, Hul'.
    + exists [l]. unfold case_inverted, upper, lower; simpl.
      rewrite Hul, Hu, Hul'; simpl. by rewrite Hl, Hlu.
  - intros c Hc%lowercase_ascii.
    assert (Forall (λ c, simple_case_pair cpython c (c - 32)%N)
              (N.of_nat <$> seq 97 26)) as Hall.
    { unfold simple_case_pair. apply (bool_decide_unpack _). by vm_compute. }
    rewrite Forall_forall in Hall. by apply Hall.
  - intros c Hc.
    assert (c ∈ (N.of_nat <$> seq 65 26)) as Hin.
    { apply list_elem_of_fmap. exists (N.to_nat c).
      split; [by rewrite N2Nat.id|]. apply elem_of_seq. lia. }
    assert (Forall (λ c, simple_case_pair cpython (c + 32)%N c)
              (N.of_nat <$> seq 65 26)) as Hall.
    { unfold simple_case_pair. apply (bool_decide_unpack _). by vm_compute. }
    rewrite Forall_forall in Hall. by apply Hall.
Qed.

Lemma case_inverted_involutive_witness :
  ∃ r, case_inverted cpython (py "q") = Some r
       ∧ case_inverted cpython r = Some (py "q").
Proof.
  apply (proj1 case_inverted_involutive cpython 113%N 81%N 113%N);
    [by vm_compute|by left].
Defined.

(** C9 as it is stated fails.  U+0131, the dotless i, is lowercase and its
    uppercase is [I]; [I] is uppercase and its lowercase is [i], another
    character. *)
Lemma case_inverted_counterexample :
  case_inverted cpython [0x131%N] = Some (py "I")
  ∧ case_inverted cpython (py "I") = Some (py "i")
  ∧ py "i" ≠ [0x131%N]
  ∧ swapped_casing cpython [0x131%N] = Trace [py "I"] None
  ∧ swapped_casing cpython (py "I") = Trace [py "i"] None.
Proof. split_and!; by vm_compute. Qed.

(** ** Whitespace in the token *)

Lemma seq_split n m : m < n → seq 0 n = seq 0 m ++ m :: seq (S m) (n - S m).
Proof.
  intros Hm. replace n with (m + S (n - S m)) at 1 by lia.
  by rewrite seq_app.
Qed.

Lemma enumerate_whitespace (pre post : str) w :
  enumerate (pre ++ w :: post)
  = enumerate pre
    ++ (length pre, w) :: imap (λ n, pair (length pre + S n)) post
  ∧ take (length pre) (enumerate (pre ++ w :: post)) = enumerate pre.
Proof.
  rewrite enumerate_app, imap_cons, Nat.add_0_r. split; [done|].
  apply take_app_length'. unfold enumerate. by rewrite length_imap.
Qed.

Lemma proximity_typo_body_offers ucd layout value position letter :
  ch_isspace ucd letter = false → is_Some (value_of layout !! letter) →
  ∃ new_values,
    proximity_typo_body ucd layout value (position, letter) = Offer new_values.
Proof.
  intros Hs [neighbours Hl]. unfold proximity_typo_body.
  destruct (partition value letter) as [[??]?].
  rewrite isspace_one, Hs, Hl. by eexists.
Qed.

Lemma proximity_typo_body_whitespace ucd layout value position letter :
  ch_isspace ucd letter = true →
  proximity_typo_body ucd layout value (position, letter) = Raise WhitespaceError.
Proof.
  intros Hs. unfold proximity_typo_body.
  destruct (partition value letter) as [[??]?]. by rewrite isspace_one, Hs.
Qed.

Lemma dropped_letter_whitespace ucd pre w post :
  has_whitespace ucd pre = false → ch_isspace ucd w = true →
  dropped_letter ucd (pre ++ w :: post)
  = Trace (first_seen ((λ i, delete i (pre ++ w :: post)) <$> seq 0 (length pre)))
          (Some WhitespaceError).
Proof.
  rewrite has_whitespace_false. intros Hws Hw.
  unfold dropped_letter, range. rewrite for_each_spec.
  rewrite (seq_split _ (length pre)) by (rewrite length_app; simpl; lia).
  rewrite (offered_until _ (λ i, [delete i (pre ++ w :: post)])).
  - rewrite (dropped_letter_body_raise _ _ _ w), bind_singleton; [done| |done].
    by rewrite list_lookup_middle.
  - intros i Hi%elem_of_seq.
    destruct (lookup_lt_is_Some_2 pre i) as [c Hc]; [lia|].
    apply (dropped_letter_body_offer _ _ _ c).
    + by rewrite lookup_app_l by lia.
    + apply Hws. by eapply list_elem_of_lookup_2.
Qed.

Lemma swapped_letter_whitespace ucd pre w post :
  has_whitespace ucd pre = false → ch_isspace ucd w = true →
  2 ≤ length (pre ++ w :: post) →
  swapped_letter ucd (pre ++ w :: post)
  = Trace (first_seen (transposed (pre ++ w :: post) <$> seq 0 (length pre - 1)))
          (Some WhitespaceError).
Proof.
  rewrite has_whitespace_false, length_app. simpl. intros Hws Hw Hlen.
  set (value := pre ++ w :: post).
  assert (length value = length pre + S (length post)) as Hvalue
    by (unfold value; by rewrite length_app).
  assert (value !! length pre = Some w) as Hwat
    by (unfold value; by rewrite list_lookup_middle).
  assert (∀ i c, pre !! i = Some c → value !! i = Some c) as Hpre.
  { intros i c Hc. unfold value. rewrite lookup_app_l; [done|].
    by eapply lookup_lt_Some. }
  unfold swapped_letter, range. rewrite for_each_spec.
  rewrite (seq_split _ (length pre - 1)) by lia.
  rewrite (offered_until _ (λ i, [transposed value i])).
  - destruct (lookup_lt_is_Some_2 value (length pre - 1)) as [a Ha]; [lia|].
    destruct (lookup_lt_is_Some_2 value (length pre - 1 + 1)) as [b Hb]; [lia|].
    rewrite (swapped_letter_body_raise _ _ _ a b), bind_singleton; [done..|].
    destruct (decide (length pre = 0)) as [Hz|Hz].
    + rewrite Hz in *. simpl in Ha. rewrite Hwat in Ha.
      injection Ha as <-. by rewrite Hw.
    + replace (length pre - 1 + 1) with (length pre) in Hb by lia.
      rewrite Hwat in Hb. injection Hb as <-. by rewrite Hw, orb_true_r.
  - intros i Hi%elem_of_seq.
    destruct (lookup_lt_is_Some_2 pre i) as [a Ha]; [lia|].
    destruct (lookup_lt_is_Some_2 pre (i + 1)) as [b Hb]; [lia|].
    apply (swapped_letter_body_offer _ _ _ a b); auto;
      apply Hws; by eapply list_elem_of_lookup_2.
Qed.

Lemma swapped_casing_whitespace ucd pre w post :
  has_whitespace ucd pre = false → ch_isspace ucd w = true →
  (∀ c, c ∈ pre → is_Some (case_inverted ucd [c])) →
  swapped_casing ucd (pre ++ w :: post)
  = Trace (yields (swapped_casing_positions ucd (pre ++ w :: post) (length pre)))
          (Some (WhitespaceErrorAt (length pre)))
  ∧ raised (swapped_casing_positions ucd (pre ++ w :: post) (length pre)) = None.
Proof.
  rewrite has_whitespace_false. intros Hws Hw Hcased.
  unfold swapped_casing, swapped_casing_positions.
  destruct (enumerate_whitespace pre post w) as [-> ->].
  apply for_each_offers_then_raises; [|by apply swapped_casing_body_raise].
  intros [j d] Hd%elem_of_enumerate%list_elem_of_lookup_2.
  apply swapped_casing_body_offers; auto.
  apply elem_of_app. by left.
Qed.

Lemma proximity_typo_whitespace ucd layout pre w post :
  has_whitespace ucd pre = false → ch_isspace ucd w = true →
  (∀ c, c ∈ pre → is_Some (value_of layout !! c)) →
  proximity_typo ucd layout (pre ++ w :: post)
  = Trace (yields (proximity_typo_positions ucd layout (pre ++ w :: post)
                     (length pre)))
          (Some WhitespaceError)
  ∧ raised (proximity_typo_positions ucd layout (pre ++ w :: post) (length pre))
    = None.
Proof.
  rewrite has_whitespace_false. intros Hws Hw Hkeys.
  unfold proximity_typo, proximity_typo_positions.
  destruct (enumerate_whitespace pre post w) as [-> ->].
  apply for_each_offers_then_raises; [|by apply proximity_typo_body_whitespace].
  intros [j d] Hd%elem_of_enumerate%list_elem_of_lookup_2.
  apply proximity_typo_body_offers; auto.
Qed.

(** C8, as the code has it.  Let the first whitespace character of the token
    be at position [p].  [dropped_letter] yields the variants of the
    positions before [p] and then raises the whitespace error.
    [swapped_letter] does so for the pairs before the one that holds the
    whitespace, provided the token has two characters at least.
    [swapped_casing] and [proximity_typo] yield what their loop yields on the
    positions before [p], which it completes, and then raise the whitespace
    error, provided every character before [p] is supported (cased, or a key
    of the layout).  On ["ca t"] every generator raises the whitespace error
    after its variants for ["c"] and ["a"]. *)
Theorem whitespace_raised_when_reached :
  (∀ ucd pre w post,
     has_whitespace ucd pre = false → ch_isspace ucd w = true →
     dropped_letter ucd (pre ++ w :: post)
     = Trace (first_seen ((λ i, delete i (pre ++ w :: post))
                          <$> seq 0 (length pre)))
             (Some WhitespaceError)
     ∧ (2 ≤ length (pre ++ w :: post) →
        swapped_letter ucd (pre ++ w :: post)
        = Trace (first_seen (transposed (pre ++ w :: post)
                             <$> seq 0 (length pre - 1)))
                (Some WhitespaceError))
     ∧ ((∀ c, c ∈ pre → is_Some (case_inverted ucd [c])) →
        swapped_casing ucd (pre ++ w :: post)
        = Trace (yields (swapped_casing_positions ucd (pre ++ w :: post)
                           (length pre)))
                (Some (WhitespaceErrorAt (length pre)))
        ∧ raised (swapped_casing_positions ucd (pre ++ w :: post) (length pre))
          = None)
     ∧ (∀ layout,
          (∀ c, c ∈ pre → is_Some (value_of layout !! c)) →
          proximity_typo ucd layout (pre ++ w :: post)
          = Trace (yields (proximity_typo_positions ucd layout
                             (pre ++ w :: post) (length pre)))
                  (Some WhitespaceError)
          ∧ raised (proximity_typo_positions ucd layout (pre ++ w :: post)
                      (length pre))
            = None))
  ∧ dropped_letter cpython (py "ca t")
    = Trace [py "a t"; py "c t"] (Some WhitespaceError)
  ∧ swapped_letter cpython (py "ca t")
    = Trace [py "ac t"] (Some WhitespaceError)
  ∧ swapped_casing cpython (py "ca t")
    = Trace [py "Ca t"; py "cA t"] (Some (WhitespaceErrorAt 2))
  ∧ proximity_typo cpython QWERTY_HORIZONTAL (py "ca t")
    = Trace [py "xa t"; py "va t"; py "cs t"] (Some WhitespaceError)
  ∧ proximity_typo cpython QWERTY_VERTICAL (py "ca t")
    = Trace [py "da t"; py "fa t"; py "cq t"; py "cw t"; py "cz t"]
            (Some WhitespaceError).
Proof.
  split; [|split_and!; by vm_compute].
  intros ucd pre w post Hws Hw. split_and!.
  - by apply dropped_letter_whitespace.
  - by apply swapped_letter_whitespace.
  - by apply swapped_casing_whitespace.
  - intros layout. by apply proximity_typo_whitespace.
Qed.

Lemma whitespace_raised_when_reached_witness :
  has_whitespace cpython (py "no") = false
  ∧ ch_isspace cpython 32%N = true
  ∧ dropped_letter cpython (py "no way")
    = Trace [py "o way"; py "n way"] (Some WhitespaceError)
  ∧ swapped_letter cpython (py "no way")
    = Trace [py "on way"] (Some WhitespaceError).
Proof.
  destruct (proj1 whitespace_raised_when_reached cpython (py "no") 32%N
              (py "way") eq_refl eq_refl) as (Hd & Hs & _).
  split_and!; [reflexivity..| |].
  - etrans; [exact Hd|reflexivity].
  - etrans; [apply Hs; simpl; lia|reflexivity].
Defined.

(** C8 as it is stated fails.  On a token that is one whitespace character
    [swapped_letter] finds no pair and returns normally.  On ["1 "] the
    character before the whitespace is unsupported, and [swapped_casing] and
    [proximity_typo] raise for it, not for the whitespace. *)
Lemma whitespace_counterexample :
  (has_whitespace cpython (py " ") = true
   ∧ swapped_letter cpython (py " ") = Trace [] None)
  ∧ (has_whitespace cpython (py "1 ") = true
     ∧ swapped_casing cpython (py "1 ") = Trace [] (Some UnhandledCasing)
     ∧ proximity_typo cpython QWERTY_HORIZONTAL (py "1 ")
       = Trace [] (Some (UnsupportedCharacter (py "1 ")))).
Proof. split; split_and!; by vm_compute. Qed.

(** ** proximity_typo and repeated letters *)

(** X15.  Where no letter of the token repeats, the split at the first
    occurrence is the split at the position, and [proximity_typo] yields, for
    each position from the left and each neighbour in table order, the token
    with the character at that position replaced by the neighbour. *)
Lemma proximity_typo_distinct_letters ucd layout value :
  NoDup value → has_whitespace ucd value = false →
  (∀ c, c ∈ value → is_Some (value_of layout !! c)) →
  proximity_typo ucd layout value
  = Trace (first_seen
             (enumerate value ≫= λ ic,
                (λ r, <[ic.1:=r]> value) <$> default [] (value_of layout !! ic.2)))
          None.
Proof.
  rewrite has_whitespace_false. intros Hnd Hws Hkeys.
  unfold proximity_typo. rewrite for_each_spec.
  rewrite (offered_all _ (λ ic, (λ r, <[ic.1:=r]> value)
                                <$> default [] (value_of layout !! ic.2)));
    [done|].
  intros [i c] Hc%elem_of_enumerate. cbn [fst snd].
  pose proof (list_elem_of_lookup_2 _ _ _ Hc) as Hin.
  destruct (Hkeys c Hin) as [neighbours Hl].
  unfold proximity_typo_body.
  rewrite (partition_first _ _ _ Hc (NoDup_first_occurrence _ _ _ Hnd Hc)).
  rewrite isspace_one, (Hws c Hin), Hl; simpl. f_equal.
  apply list_fmap_ext. intros _ r _. by eapply replace_first.
Qed.

(** C2, on the code.  [proximity_typo] splits the token at the first
    occurrence of the letter, not at the position the loop is at: on ["aa"]
    with the horizontal layout the second position offers ["sa"] again, and
    ["as"], the token with its second character replaced by the neighbour
    [s], is never yielded. *)
Theorem proximity_typo_repeated_letter :
  has_whitespace cpython (py "aa") = false
  ∧ py "aa" !! 1 = Some 97%N
  ∧ value_of QWERTY_HORIZONTAL !! 97%N = Some (py "s")
  ∧ <[1:=115%N]> (py "aa") = py "as"
  ∧ proximity_typo cpython QWERTY_HORIZONTAL (py "aa") = Trace [py "sa"] None
  ∧ py "as" ∉ yields (proximity_typo cpython QWERTY_HORIZONTAL (py "aa")).
Proof.
  split_and!; try by vm_compute.
  intros H. vm_compute in H. apply list_elem_of_singleton in H. done.
Qed.

(** * Further properties of the generators *)

(** ** Which tokens a generator accepts *)

Lemma has_whitespace_true ucd value :
  has_whitespace ucd value = true →
  ∃ pre w post,
    value = pre ++ w :: post
    ∧ has_whitespace ucd pre = false ∧ ch_isspace ucd w = true.
Proof.
  unfold has_whitespace. induction value as [|c value IH]; simpl; [done|].
  destruct (ch_isspace ucd c) eqn:Hc; simpl.
  - intros _. by exists [], c, value.
  - intros (pre & w & post & -> & Hpre & Hw)%IH.
    exists (c :: pre), w, post. simpl. by rewrite Hc, Hpre.
Qed.

(** A loop that raises does so at the first item that offers nothing. *)
Lemma offered_raised_first {I} (body : I → step) items e :
  (offered (body <$> items)).2 = Some e →
  ∃ pre x post,
    items = pre ++ x :: post ∧ body x = Raise e
    ∧ ∀ i, i ∈ pre → ∃ new_values, body i = Offer new_values.
Proof.
  induction items as [|i items IH]; csimpl; [done|].
  destruct (body i) as [e'| |vs] eqn:Hi; csimpl; [|done|].
  - intros [= ->]. exists [], i, items. split_and!; [done..|].
    by intros ? ?%elem_of_nil.
  - destruct (offered (body <$> items)) as [more r]; csimpl in *.
    intros (pre & x & post & -> & Hx & Hpre)%IH.
    exists (i :: pre), x, post. split_and!; [done..|].
    intros j [->|?]%elem_of_cons; eauto.
Qed.

(** A loop without [break] returns normally only if every item offers. *)
Lemma offered_returns {I} (body : I → step) items :
  (∀ i, i ∈ items → body i ≠ Break) →
  (offered (body <$> items)).2 = None ↔
  ∀ i, i ∈ items → ∃ new_values, body i = Offer new_values.
Proof.
  intros Hb. split.
  - intros Hnone i Hi. destruct (body i) as [e| |vs] eqn:Hbi; [| |by eexists].
    + exfalso. revert Hnone. apply offered_stops; [done|].
      exists i. split; [done|]. intros vs. by rewrite Hbi.
    + by destruct (Hb i Hi).
  - intros Hall. by rewrite (offered_all _ _ _ (offer_of_offers _ _ Hall)).
Qed.

Lemma enumerate_split (value : str) pre x post :
  enumerate value = pre ++ x :: post →
  x.1 = length pre ∧ value !! length pre = Some x.2
  ∧ ∀ d, d ∈ take (length pre) value → ∃ j, (j, d) ∈ pre.
Proof.
  intros Heq.
  assert (∀ j y, enumerate value !! j = Some y → y.1 = j ∧ value !! j = Some y.2)
    as Hlook.
  { intros j y. unfold enumerate. rewrite list_lookup_imap.
    destruct (value !! j); [|done]. by intros [= <-]. }
  destruct (Hlook (length pre) x) as [??].
  { by rewrite Heq, list_lookup_middle. }
  split_and!; [done..|].
  intros d (j & Hj & Hlt)%elem_of_take. exists j.
  apply list_elem_of_lookup. exists j.
  assert (enumerate value !! j = Some (j, d)) as Hjd.
  { unfold enumerate. by rewrite list_lookup_imap, Hj. }
  by rewrite Heq, lookup_app_l in Hjd.
Qed.

Lemma swapped_letter_short ucd value :
  length value ≤ 1 → swapped_letter ucd value = Trace [] None.
Proof.
  destruct value as [|a [|b value]]; simpl; [done| |lia]. intros _. by vm_compute.
Qed.

(** X1.  [dropped_letter] raises exactly when the token contains a whitespace
    character, and [swapped_letter] exactly when it does and the token has two
    characters at least; the exception is the whitespace error in either
    case, and no other one is ever raised. *)
Theorem drop_and_swap_raise ucd value :
  raised (dropped_letter ucd value)
  = (if has_whitespace ucd value then Some WhitespaceError else None)
  ∧ raised (swapped_letter ucd value)
    = (if has_whitespace ucd value && bool_decide (2 ≤ length value)
       then Some WhitespaceError else None).
Proof.
  destruct (has_whitespace ucd value) eqn:Hws; simpl.
  - apply has_whitespace_true in Hws as (pre & w & post & -> & Hpre & Hw).
    split; [by rewrite dropped_letter_whitespace|].
    case_bool_decide as Hlen.
    + by rewrite swapped_letter_whitespace.
    + rewrite swapped_letter_short; [done|lia].
  - split; [by rewrite dropped_letter_whitespace_free|].
    by rewrite swapped_letter_whitespace_free.
Qed.

Lemma swapped_casing_body_inv ucd value position c :
  c ∈ value →
  match swapped_casing_body ucd value (position, c) with
  | Raise e =>
      (ch_isspace ucd c = true ∧ e = WhitespaceErrorAt position)
      ∨ (ch_isspace ucd c = false ∧ case_inverted ucd [c] = None
         ∧ e = UnhandledCasing)
  | Break => False
  | Offer _ => ch_isspace ucd c = false ∧ is_Some (case_inverted ucd [c])
  end.
Proof.
  intros (i & _ & _ & Hp)%partition_elem. unfold swapped_casing_body.
  rewrite isspace_one, Hp. destruct (ch_isspace ucd c); [by left|].
  destruct (case_inverted ucd [c]); [by eauto|by right].
Qed.

Lemma swapped_casing_returns ucd value :
  raised (swapped_casing ucd value) = None ↔
  ∀ c, c ∈ value →
    ch_isspace ucd c = false ∧ is_Some (case_inverted ucd [c]).
Proof.
  unfold swapped_casing. rewrite for_each_spec; simpl.
  assert (∀ j d, (j, d) ∈ enumerate value → d ∈ value) as Hin.
  { intros j d ?%elem_of_enumerate. by eapply list_elem_of_lookup_2. }
  rewrite offered_returns.
  - split.
    + intros Hall c [i Hi]%list_elem_of_lookup_1.
      destruct (Hall (i, c)) as [vs Hvs]; [by apply elem_of_enumerate|].
      pose proof (swapped_casing_body_inv ucd value i c) as Hinv.
      rewrite Hvs in Hinv. apply Hinv. by eapply list_elem_of_lookup_2.
    + intros Hall [j d] Hjd. specialize (Hin _ _ Hjd).
      destruct (Hall d Hin). by apply swapped_casing_body_offers.
  - intros [j d] Hjd Hbreak.
    pose proof (swapped_casing_body_inv ucd value j d (Hin _ _ Hjd)) as Hinv.
    by rewrite Hbreak in Hinv.
Qed.

(** X2.  [swapped_casing] returns normally exactly on the tokens whose
    characters are all cased and none whitespace.  Otherwise it raises for the
    first character that is not: the whitespace error, carrying that
    character's position, if it is whitespace, and the unhandled-casing error
    if it is not. *)
Theorem swapped_casing_raise ucd value :
  (raised (swapped_casing ucd value) = None ↔
   ∀ c, c ∈ value →
     ch_isspace ucd c = false ∧ is_Some (case_inverted ucd [c]))
  ∧ (∀ e, raised (swapped_casing ucd value) = Some e →
       ∃ p c,
         value !! p = Some c
         ∧ (∀ d, d ∈ take p value →
              ch_isspace ucd d = false ∧ is_Some (case_inverted ucd [d]))
         ∧ ((ch_isspace ucd c = true ∧ e = WhitespaceErrorAt p)
            ∨ (ch_isspace ucd c = false ∧ case_inverted ucd [c] = None
               ∧ e = UnhandledCasing))).
Proof.
  split; [apply swapped_casing_returns|].
  unfold swapped_casing. rewrite for_each_spec; simpl.
  assert (∀ j d, (j, d) ∈ enumerate value → d ∈ value) as Hin.
  { intros j d ?%elem_of_enumerate. by eapply list_elem_of_lookup_2. }
  intros e (pre & [p c] & post & Heq & Hx & Hpre)%offered_raised_first.
  destruct (enumerate_split _ _ _ _ Heq) as (Hp & Hc & Htake); cbn [fst snd] in *.
  subst p. exists (length pre), c. split_and!; [done| |].
  - intros d (j & Hjd)%Htake. destruct (Hpre _ Hjd) as [vs Hvs].
    pose proof (swapped_casing_body_inv ucd value j d) as Hinv.
    rewrite Hvs in Hinv. apply Hinv, (Hin j).
    rewrite Heq. apply elem_of_app. by left.
  - pose proof (swapped_casing_body_inv ucd value (length pre) c) as Hinv.
    rewrite Hx in Hinv. apply Hinv. by eapply list_elem_of_lookup_2.
Qed.

Lemma proximity_typo_body_inv_any ucd layout value position c :
  match proximity_typo_body ucd layout value (position, c) with
  | Raise e =>
      (ch_isspace ucd c = true ∧ e = WhitespaceError)
      ∨ (ch_isspace ucd c = false ∧ value_of layout !! c = None
         ∧ e = UnsupportedCharacter value)
  | Break => False
  | Offer _ => ch_isspace ucd c = false ∧ is_Some (value_of layout !! c)
  end.
Proof.
  unfold proximity_typo_body. destruct (partition value c) as [[??]?].
  rewrite isspace_one. destruct (ch_isspace ucd c); [by left|].
  destruct (value_of layout !! c); [by eauto|by right].
Qed.

Lemma proximity_typo_returns ucd layout value :
  raised (proximity_typo ucd layout value) = None ↔
  ∀ c, c ∈ value →
    ch_isspace ucd c = false ∧ is_Some (value_of layout !! c).
Proof.
  unfold proximity_typo. rewrite for_each_spec; simpl.
  rewrite offered_returns.
  - split.
    + intros Hall c [i Hi]%list_elem_of_lookup_1.
      destruct (Hall (i, c)) as [vs Hvs]; [by apply elem_of_enumerate|].
      pose proof (proximity_typo_body_inv_any ucd layout value i c) as Hinv.
      by rewrite Hvs in Hinv.
    + intros Hall [j d] Hjd%elem_of_enumerate%list_elem_of_lookup_2.
      destruct (Hall d Hjd). by apply proximity_typo_body_offers.
  - intros [j d] _ Hbreak.
    pose proof (proximity_typo_body_inv_any ucd layout value j d) as Hinv.
    by rewrite Hbreak in Hinv.
Qed.

(** X3.  [proximity_typo] returns normally exactly on the tokens whose
    characters are all keys of the layout and none whitespace.  Otherwise it
    raises for the first character that is not: the whitespace error if that
    character is whitespace (checked before the table is looked at), and else
    the unsupported-character error, which carries the whole token. *)
Theorem proximity_typo_raise ucd layout value :
  (raised (proximity_typo ucd layout value) = None ↔
   ∀ c, c ∈ value →
     ch_isspace ucd c = false ∧ is_Some (value_of layout !! c))
  ∧ (∀ e, raised (proximity_typo ucd layout value) = Some e →
       ∃ p c,
         value !! p = Some c
         ∧ (∀ d, d ∈ take p value →
              ch_isspace ucd d = false ∧ is_Some (value_of layout !! d))
         ∧ ((ch_isspace ucd c = true ∧ e = WhitespaceError)
            ∨ (ch_isspace ucd c = false ∧ value_of layout !! c = None
               ∧ e = UnsupportedCharacter value))).
Proof.
  split; [apply proximity_typo_returns|].
  unfold proximity_typo. rewrite for_each_spec; simpl.
  intros e (pre & [p c] & post & Heq & Hx & Hpre)%offered_raised_first.
  destruct (enumerate_split _ _ _ _ Heq) as (Hp & Hc & Htake); cbn [fst snd] in *.
  subst p. exists (length pre), c. split_and!; [done| |].
  - intros d (j & Hjd)%Htake. destruct (Hpre _ Hjd) as [vs Hvs].
    pose proof (proximity_typo_body_inv_any ucd layout value j d) as Hinv.
    by rewrite Hvs in Hinv.
  - pose proof (proximity_typo_body_inv_any ucd layout value (length pre) c)
      as Hinv.
    by rewrite Hx in Hinv.
Qed.

(** ** The shape of the variants *)

(** X4.  No generator yields a value twice, whatever the token and also when
    the run ends in an exception. *)
Theorem generators_no_duplicates ucd layout value :
  NoDup (yields (dropped_letter ucd value))
  ∧ NoDup (yields (swapped_letter ucd value))
  ∧ NoDup (yields (swapped_casing ucd value))
  ∧ NoDup (yields (proximity_typo ucd layout value)).
Proof.
  unfold dropped_letter, swapped_letter, swapped_casing, proximity_typo.
  rewrite !for_each_spec. split_and!; apply NoDup_first_seen.
Qed.

Lemma dropped_letter_body_inv ucd value i new_values :
  dropped_letter_body ucd value i = Offer new_values →
  i < length value ∧ new_values = [delete i value].
Proof.
  unfold dropped_letter_body. destruct (value !! i) as [c|] eqn:Hc; [|done].
  destruct (isspace ucd [c]); [done|]. intros [= <-].
  split; [by eapply lookup_lt_Some|]. by rewrite dropped_at_delete.
Qed.

Lemma transposed_swap (value : str) i a b :
  value !! i = Some a → value !! S i = Some b →
  value = take i value ++ a :: b :: drop (S (S i)) value
  ∧ transposed value i = take i value ++ b :: a :: drop (S (S i)) value.
Proof.
  intros Ha Hb. split.
  - rewrite <-(take_drop_middle _ _ _ Ha) at 1. do 2 f_equal.
    rewrite <-(take_drop_middle _ _ _ Hb) at 1.
    rewrite drop_app_length'; [done|].
    rewrite length_take. apply lookup_lt_Some in Hb. lia.
  - rewrite <-(swapped_at_transposed value i a b); [|done|by rewrite Nat.add_1_r].
    unfold swapped_at. by replace (i + 2) with (S (S i)) by lia.
Qed.

(** X5.  A variant of [dropped_letter] is the token with one character taken
    out: a subsequence of the token, one shorter.  A variant of
    [swapped_letter] is a rearrangement of the token's characters.  Both hold
    for any token, also for the variants yielded before an exception. *)
Theorem drop_and_swap_shape ucd value v :
  (v ∈ yields (dropped_letter ucd value) →
   v `sublist_of` value ∧ S (length v) = length value)
  ∧ (v ∈ yields (swapped_letter ucd value) → v ≡ₚ value).
Proof.
  split.
  - intros (i & vs & _ & [Hi ->]%dropped_letter_body_inv & Hv)%yields_elem.
    apply list_elem_of_singleton in Hv as ->.
    split; [apply sublist_delete|]. rewrite length_delete_lt by done. lia.
  - intros (i & vs & _ & [Hi ->]%swapped_letter_body_inv & Hv)%yields_elem.
    apply list_elem_of_singleton in Hv as ->.
    destruct (lookup_lt_is_Some_2 value i) as [a Ha]; [lia|].
    destruct (lookup_lt_is_Some_2 value (S i)) as [b Hb]; [lia|].
    destruct (transposed_swap _ _ _ _ Ha Hb) as [Hvalue ->].
    rewrite Hvalue at 3. apply Permutation_app_head, Permutation_swap.
Qed.

Lemma transposed_same (value : str) i a b :
  value !! i = Some a → value !! S i = Some b →
  transposed value i = value ↔ a = b.
Proof.
  intros Ha Hb. unfold transposed. rewrite Ha, Hb. split.
  - intros Heq. apply (f_equal (λ l, l !! i)) in Heq.
    rewrite list_lookup_insert_eq, Ha in Heq
      by (rewrite length_insert; by eapply lookup_lt_Some).
    by injection Heq.
  - intros ->. by rewrite (list_insert_id _ (S i)), list_insert_id.
Qed.

(** X6.  The token itself is never among the variants of [dropped_letter] or
    of [proximity_typo].  It is among those of [swapped_letter] only if two
    neighbouring characters are equal, and on a token without whitespace
    whenever they are. *)
Theorem token_among_variants ucd layout value :
  (value ∉ yields (dropped_letter ucd value))
  ∧ (value ∉ yields (proximity_typo ucd layout value))
  ∧ (value ∈ yields (swapped_letter ucd value) → has_double value)
  ∧ (has_whitespace ucd value = false → has_double value →
     value ∈ yields (swapped_letter ucd value)).
Proof.
  split_and!.
  - intros (i & vs & _ & [Hi ->]%dropped_letter_body_inv & Hv)%yields_elem.
    apply list_elem_of_singleton in Hv.
    apply (f_equal length) in Hv. rewrite length_delete_lt in Hv by done. lia.
  - intros ([position letter] & vs & Hitem & Hbody & Hv)%yields_elem.
    apply elem_of_enumerate, list_elem_of_lookup_2 in Hitem.
    apply proximity_typo_body_inv in Hbody
      as (i & neighbours & Hi & _ & _ & Hl & ->); [|done].
    apply list_elem_of_fmap in Hv as (r & Heq & Hr).
    apply (f_equal (λ l, l !! i)) in Heq.
    rewrite list_lookup_insert_eq, Hi in Heq by by eapply lookup_lt_Some.
    injection Heq as <-. by eapply neighbour_differs.
  - intros (i & vs & _ & [Hi ->]%swapped_letter_body_inv & Hv)%yields_elem.
    apply list_elem_of_singleton in Hv.
    destruct (lookup_lt_is_Some_2 value i) as [a Ha]; [lia|].
    destruct (lookup_lt_is_Some_2 value (S i)) as [b Hb]; [lia|].
    symmetry in Hv. apply (transposed_same _ _ _ _ Ha Hb) in Hv as ->.
    by exists i, b.
  - intros Hws (i & a & Ha & Hb).
    rewrite (swapped_letter_whitespace_free _ _ Hws); simpl.
    apply elem_of_first_seen, list_elem_of_fmap. exists i. split.
    + symmetry. by apply (transposed_same _ _ _ _ Ha Hb).
    + apply elem_of_seq. apply lookup_lt_Some in Hb. lia.
Qed.

Lemma token_among_variants_witness :
  py "noon" ∈ yields (swapped_letter cpython (py "noon")).
Proof.
  apply (token_among_variants cpython QWERTY_HORIZONTAL (py "noon"));
    [reflexivity|]. by exists 1, 111%N.
Defined.

(** ** How many variants *)

Lemma first_seen_fmap (f : str → str) `{!Inj (=) (=) f} l :
  first_seen (f <$> l) = f <$> first_seen l.
Proof.
  induction l as [|x l IH]; csimpl; [done|]. rewrite IH. f_equal.
  generalize (first_seen l). intros k.
  induction k as [|y k IHk]; csimpl; [done|].
  destruct (decide (y = x)) as [->|Hne].
  - by rewrite !filter_cons_False by (intros ?; done).
  - rewrite !filter_cons_True; [by rewrite fmap_cons, IHk|done|].
    intros ?%(inj f). done.
Qed.

Lemma filter_other_absent (x : str) (l : list str) :
  x ∉ l → filter (λ y, y ≠ x) l = l.
Proof.
  induction l as [|y l IH]; [done|]. intros [??]%not_elem_of_cons.
  rewrite filter_cons_True by done. f_equal. by apply IH.
Qed.

Lemma length_filter_other (x : str) (l : list str) :
  NoDup l →
  length (filter (λ y, y ≠ x) l)
  = length l - (if decide (x ∈ l) then 1 else 0).
Proof.
  induction 1 as [|y l Hy Hnd IH]; [done|].
  destruct (decide (y = x)) as [->|Hne].
  - rewrite filter_cons_False by (intros ?; done).
    rewrite decide_True by left. rewrite filter_other_absent by done.
    simpl. lia.
  - rewrite filter_cons_True by done. simpl. rewrite IH.
    destruct (decide (x ∈ l)) as [Hin|Hin].
    + rewrite decide_True by by right.
      destruct l; [by apply elem_of_nil in Hin|simpl; lia].
    + rewrite decide_False; [lia|]. intros [->|?]%elem_of_cons; done.
Qed.

(** The variants [dropped_letter] offers on a token without whitespace. *)
Lemma deletions_cons (c : N) (l : str) :
  (λ i, delete i (c :: l)) <$> seq 0 (S (length l))
  = l :: ((c ::.) <$> ((λ i, delete i l) <$> seq 0 (length l))).
Proof.
  simpl. f_equal. rewrite <-fmap_S_seq, <-!list_fmap_compose.
  by apply list_fmap_ext.
Qed.

Lemma runs_positive (c : N) (l : str) : 0 < runs (c :: l).
Proof.
  revert c. induction l as [|d l IH]; intros c; cbn [runs head].
  - rewrite decide_False by done. lia.
  - specialize (IH d). cbn [runs] in IH. destruct (decide (Some d = Some c)); lia.
Qed.

Lemma length_deletions (value : str) :
  length (first_seen ((λ i, delete i value) <$> seq 0 (length value)))
  = runs value.
Proof.
  induction value as [|c l IH]; [done|].
  change (length (c :: l)) with (S (length l)).
  rewrite deletions_cons. cbn [first_seen runs length].
  assert (Inj (=) (=) (c ::.)) as Hinj by (by intros x y [=]).
  rewrite first_seen_fmap by done.
  rewrite length_filter_other by (apply NoDup_fmap_2; [done|apply NoDup_first_seen]).
  rewrite length_fmap, IH.
  destruct l as [|d l']; [done|]. cbn [head].
  destruct (decide (Some d = Some c)) as [[= ->]|Hne].
  - rewrite decide_True.
    + pose proof (runs_positive c l'). lia.
    + apply list_elem_of_fmap. exists l'. split; [done|].
      apply elem_of_first_seen, list_elem_of_fmap. exists 0.
      split; [done|]. apply elem_of_seq. simpl. lia.
  - rewrite decide_False; [lia|].
    intros (k & [= -> _] & _)%list_elem_of_fmap. done.
Qed.

Lemma runs_no_double (value : str) : ¬ has_double value → runs value = length value.
Proof.
  induction value as [|c l IH]; [done|]. intros Hno. cbn [runs length].
  rewrite IH.
  - rewrite decide_False; [done|]. intros Hhead. apply Hno.
    exists 0, c. split; [done|]. by destruct l.
  - intros (i & a & ? & ?). apply Hno. by exists (S i), a.
Qed.

(** X7.  On a token without whitespace [dropped_letter] yields one variant
    for each run of equal characters: removing any character of a run gives
    the same string.  A token in which no two neighbours are equal gets as
    many variants as it has characters. *)
Theorem dropped_letter_count ucd value :
  has_whitespace ucd value = false →
  length (yields (dropped_letter ucd value)) = runs value
  ∧ (¬ has_double value →
     length (yields (dropped_letter ucd value)) = length value).
Proof.
  intros Hws. rewrite (dropped_letter_whitespace_free _ _ Hws); simpl.
  rewrite length_deletions. split; [done|]. apply runs_no_double.
Qed.

Lemma dropped_letter_count_witness :
  length (yields (dropped_letter cpython (py "aardvark"))) = 7.
Proof.
  by apply (dropped_letter_count cpython (py "aardvark")).
Defined.

Lemma offered_length_bound {I} (body : I → step) items k :
  (∀ i new_values, i ∈ items → body i = Offer new_values → length new_values ≤ k) →
  length (offered (body <$> items)).1 ≤ k * length items.
Proof.
  induction items as [|i items IH]; intros Hk; csimpl; [lia|].
  destruct (body i) as [e| |vs] eqn:Hi; csimpl; [lia..|].
  assert (length vs ≤ k) by (apply (Hk i); [left|done]).
  assert (length (offered (body <$> items)).1 ≤ k * length items) as IH'.
  { apply IH. intros j ws ?. apply Hk. by right. }
  destruct (offered (body <$> items)) as [more r]; csimpl in *.
  rewrite length_app. lia.
Qed.

Lemma yields_length_bound {I} (body : I → step) items k :
  (∀ i new_values, i ∈ items → body i = Offer new_values → length new_values ≤ k) →
  length (yields (for_each body items ∅)) ≤ k * length items.
Proof.
  intros Hk. rewrite for_each_spec; simpl.
  etrans; [apply length_first_seen|]. by apply offered_length_bound.
Qed.

Lemma length_enumerate (value : str) : length (enumerate value) = length value.
Proof. apply length_imap. Qed.

(** A decidable property of every row of both tables, by evaluation. *)
Ltac by_rows layout :=
  destruct layout; apply (bool_decide_unpack _); by vm_compute.

Lemma neighbours_few layout c neighbours :
  value_of layout !! c = Some neighbours →
  length neighbours
  ≤ match layout with QWERTY_HORIZONTAL => 2 | QWERTY_VERTICAL => 4 end.
Proof.
  intros Hc%value_of_items.
  assert (Forall (λ kn : N * list N,
            length kn.2
            ≤ match layout with QWERTY_HORIZONTAL => 2 | QWERTY_VERTICAL => 4 end)
            (items layout)) as Hall by by_rows layout.
  rewrite Forall_forall in Hall. apply (Hall _ Hc).
Qed.

Lemma neighbours_lowercase layout c neighbours :
  value_of layout !! c = Some neighbours →
  (97 ≤ c ≤ 122)%N ∧ ∀ r, r ∈ neighbours → (97 ≤ r ≤ 122)%N.
Proof.
  intros Hc%value_of_items.
  assert (Forall (λ kn : N * list N,
            (97 ≤ kn.1 ≤ 122)%N ∧ Forall (λ r, (97 ≤ r ≤ 122)%N) kn.2)
            (items layout)) as Hall by by_rows layout.
  rewrite Forall_forall in Hall. destruct (Hall _ Hc) as [? Hns].
  split; [done|]. by rewrite Forall_forall in Hns.
Qed.

Lemma layout_keys layout c :
  is_Some (value_of layout !! c) ↔ (97 ≤ c ≤ 122)%N.
Proof.
  split; [|apply layout_covers].
  intros [ns Hns]. by destruct (neighbours_lowercase _ _ _ Hns).
Qed.

Lemma proximity_typo_body_length ucd layout value item new_values :
  proximity_typo_body ucd layout value item = Offer new_values →
  ∃ neighbours,
    value_of layout !! item.2 = Some neighbours
    ∧ length new_values = length neighbours.
Proof.
  destruct item as [position letter]. cbn [snd]. unfold proximity_typo_body.
  destruct (partition value letter) as [[??]?].
  destruct (isspace ucd [letter]); [done|].
  destruct (value_of layout !! letter) as [ns|] eqn:Hns; [|done].
  intros [= <-]. exists ns. by rewrite length_fmap.
Qed.

Lemma drained_length value handlers :
  length (drained value handlers).1
  ≤ sum_list ((λ h, length (yields (h value))) <$> handlers).
Proof.
  induction handlers as [|h handlers IH]; csimpl; [done|].
  destruct (raised (h value)); csimpl; [lia|].
  destruct (drained value handlers) as [more r]; csimpl in *.
  rewrite length_app. lia.
Qed.

Lemma dropped_letter_length ucd value :
  length (yields (dropped_letter ucd value)) ≤ length value.
Proof.
  unfold dropped_letter.
  etrans; [apply (yields_length_bound _ _ 1)|].
  - by intros i vs _ [_ ->]%dropped_letter_body_inv.
  - unfold range. rewrite length_seq. lia.
Qed.

Lemma swapped_letter_length ucd value :
  length (yields (swapped_letter ucd value)) ≤ length value - 1.
Proof.
  unfold swapped_letter. rewrite for_each_spec; simpl.
  etrans; [apply length_first_seen|].
  destruct (offered_length (swapped_letter_body ucd value)
              (range (length value))) as [Hle Hlt].
  { by intros i vs _ [_ ->]%swapped_letter_body_inv. }
  unfold range in *. rewrite length_seq in *.
  destruct (decide (length value = 0)) as [Hn|Hn]; [lia|].
  cut (length (offered (swapped_letter_body ucd value <$> seq 0 (length value))).1
       < length value); [lia|].
  apply Hlt. exists (length value - 1). split; [apply elem_of_seq; lia|].
  intros vs. rewrite swapped_letter_last by lia. done.
Qed.

Lemma proximity_typo_length ucd layout value :
  length (yields (proximity_typo ucd layout value))
  ≤ match layout with QWERTY_HORIZONTAL => 2 | QWERTY_VERTICAL => 4 end
    * length value.
Proof.
  unfold proximity_typo. rewrite <-(length_enumerate value).
  apply yields_length_bound.
  intros item vs _ (ns & Hns & ->)%proximity_typo_body_length.
  by eapply neighbours_few.
Qed.

(** X8.  The size of the output is linear in the length [n] of the token:
    [proximity_typo] yields at most [2 n] variants with the horizontal layout
    and [4 n] with the vertical one, [common] at most [4 n - 1] and [mix] at
    most [8 n - 1]. *)
Theorem variant_counts ucd value :
  length (yields (horizontal_proximity_typo ucd value)) ≤ 2 * length value
  ∧ length (yields (vertical_proximity_typo ucd value)) ≤ 4 * length value
  ∧ length (yields (common ucd value)) ≤ 4 * length value - 1
  ∧ length (yields (mix ucd value)) ≤ 8 * length value - 1.
Proof.
  pose proof (dropped_letter_length ucd value).
  pose proof (swapped_letter_length ucd value).
  pose proof (proximity_typo_length ucd QWERTY_HORIZONTAL value) as Hh.
  pose proof (proximity_typo_length ucd QWERTY_VERTICAL value) as Hv.
  cbv iota in Hh, Hv.
  split_and!; [done..| |].
  - unfold common. rewrite multiple_spec; cbn [yields].
    etrans; [apply length_first_seen|].
    etrans; [apply drained_length|].
    unfold common_handlers, horizontal_proximity_typo. csimpl. lia.
  - unfold mix. rewrite multiple_spec; cbn [yields].
    etrans; [apply length_first_seen|].
    etrans; [apply drained_length|].
    unfold mix_handlers, horizontal_proximity_typo, vertical_proximity_typo.
    csimpl. lia.
Qed.

(** ** The presets *)

Lemma multiple_elem value handlers v :
  v ∈ yields (multiple value handlers) →
  ∃ h, h ∈ handlers ∧ v ∈ yields (h value).
Proof.
  rewrite multiple_spec; simpl. rewrite elem_of_first_seen. apply drained_elem.
Qed.

Lemma mix_elem ucd value v :
  v ∈ yields (common ucd value) ∨ v ∈ yields (mix ucd value) →
  v ∈ yields (dropped_letter ucd value)
  ∨ v ∈ yields (swapped_letter ucd value)
  ∨ ∃ layout, v ∈ yields (proximity_typo ucd layout value).
Proof.
  intros [(h & Hh & Hv)%multiple_elem|(h & Hh & Hv)%multiple_elem].
  - unfold common_handlers in Hh.
    repeat (apply elem_of_cons in Hh as [->|Hh]; [by eauto|]).
    by apply elem_of_nil in Hh.
  - unfold mix_handlers in Hh.
    repeat (apply elem_of_cons in Hh as [->|Hh]; [by eauto|]).
    by apply elem_of_nil in Hh.
Qed.

Lemma dropped_letter_lowercase ucd value v :
  lowercase_ascii_only value → v ∈ yields (dropped_letter ucd value) →
  lowercase_ascii_only v.
Proof.
  intros Hlow (i & vs & _ & [Hi ->]%dropped_letter_body_inv & Hv)%yields_elem c Hc.
  apply list_elem_of_singleton in Hv as ->.
  apply Hlow. by apply (sublist_subseteq _ _ (sublist_delete value i)).
Qed.

Lemma swapped_letter_lowercase ucd value v :
  lowercase_ascii_only value → v ∈ yields (swapped_letter ucd value) →
  lowercase_ascii_only v.
Proof.
  intros Hlow (i & vs & _ & [Hi ->]%swapped_letter_body_inv & Hv)%yields_elem c Hc.
  apply list_elem_of_singleton in Hv as ->.
  destruct (lookup_lt_is_Some_2 value i) as [a Ha]; [lia|].
  destruct (lookup_lt_is_Some_2 value (S i)) as [b Hb]; [lia|].
  destruct (transposed_swap _ _ _ _ Ha Hb) as [Hvalue Ht]. rewrite Ht in Hc.
  apply Hlow. rewrite Hvalue. set_solver.
Qed.

Lemma proximity_typo_lowercase ucd layout value v :
  lowercase_ascii_only value → v ∈ yields (proximity_typo ucd layout value) →
  lowercase_ascii_only v.
Proof.
  intros Hlow ([position letter] & vs & Hitem & Hbody & Hv)%yields_elem c Hc.
  apply elem_of_enumerate, list_elem_of_lookup_2 in Hitem.
  apply proximity_typo_body_inv in Hbody
    as (i & neighbours & Hi & _ & _ & Hl & ->); [|done].
  apply list_elem_of_fmap in Hv as (r & -> & Hr).
  apply list_elem_of_lookup in Hc as [j Hj].
  destruct (decide (j = i)) as [->|Hne].
  - rewrite list_lookup_insert_eq in Hj by by eapply lookup_lt_Some.
    injection Hj as <-. by eapply neighbours_lowercase.
  - rewrite list_lookup_insert_ne in Hj by done.
    apply Hlow. by eapply list_elem_of_lookup_2.
Qed.

(** X9.  The variants that [common] and [mix] yield for a token of lowercase
    ASCII letters consist of lowercase ASCII letters again: a variant can be
    given back to the generators, and it holds no character that means
    something in a regular expression. *)
Theorem variants_lowercase ucd value v :
  lowercase_ascii_only value →
  v ∈ yields (common ucd value) ∨ v ∈ yields (mix ucd value) →
  lowercase_ascii_only v.
Proof.
  intros Hlow [Hv|[Hv|[layout Hv]]]%mix_elem.
  - by eapply dropped_letter_lowercase.
  - by eapply swapped_letter_lowercase.
  - by eapply proximity_typo_lowercase.
Qed.

Lemma variants_lowercase_witness : lowercase_ascii_only (py "cst").
Proof.
  apply (variants_lowercase cpython (py "cat")).
  - intros c Hc. vm_compute in Hc.
    repeat (apply elem_of_cons in Hc as [->|Hc]; [lia|]).
    by apply elem_of_nil in Hc.
  - left. vm_compute. do 7 right. left.
Defined.

Lemma first_seen_idemp l : first_seen (first_seen l) = first_seen l.
Proof. apply first_seen_NoDup, NoDup_first_seen. Qed.

Lemma presets_whitespace ucd value :
  has_whitespace ucd value = true →
  common ucd value = dropped_letter ucd value
  ∧ mix ucd value = dropped_letter ucd value.
Proof.
  intros (pre & w & post & -> & Hpre & Hw)%has_whitespace_true.
  unfold common, mix, common_handlers, mix_handlers.
  rewrite !multiple_spec; cbn [drained].
  rewrite (dropped_letter_whitespace _ _ _ _ Hpre Hw); cbn [raised yields fst snd].
  by rewrite first_seen_idemp.
Qed.

Lemma presets_no_whitespace ucd value :
  has_whitespace ucd value = false →
  raised (common ucd value) = raised (horizontal_proximity_typo ucd value)
  ∧ (raised (horizontal_proximity_typo ucd value) = None →
     raised (mix ucd value) = raised (vertical_proximity_typo ucd value)).
Proof.
  intros Hws. unfold common, mix, common_handlers, mix_handlers.
  rewrite !multiple_spec; cbn [drained].
  rewrite (dropped_letter_whitespace_free _ _ Hws),
    (swapped_letter_whitespace_free _ _ Hws); cbn [raised yields].
  split.
  - by destruct (raised (horizontal_proximity_typo ucd value)).
  - intros ->. by destruct (raised (vertical_proximity_typo ucd value)).
Qed.

Lemma proximity_typo_returns_lowercase ucd layout value :
  has_whitespace ucd value = false →
  raised (proximity_typo ucd layout value) = None ↔ lowercase_ascii_only value.
Proof.
  rewrite has_whitespace_false, proximity_typo_returns. intros Hws.
  unfold lowercase_ascii_only. split.
  - intros Hall c Hc. apply (layout_keys layout), Hall, Hc.
  - intros Hlow c Hc. split; [by apply Hws|]. apply layout_keys, Hlow, Hc.
Qed.

Lemma lowercase_no_whitespace value :
  lowercase_ascii_only value → has_whitespace cpython value = false.
Proof.
  intros Hlow. apply has_whitespace_false. intros c Hc%Hlow%lowercase_ascii.
  assert (Forall (λ c, ch_isspace cpython c = false) (N.of_nat <$> seq 97 26))
    as Hall by (apply (bool_decide_unpack _); by vm_compute).
  rewrite Forall_forall in Hall. by apply Hall.
Qed.

Lemma common_returns ucd value :
  raised (common ucd value) = None ↔
  has_whitespace ucd value = false ∧ lowercase_ascii_only value.
Proof.
  destruct (has_whitespace ucd value) eqn:Hws.
  - destruct (presets_whitespace _ _ Hws) as [-> _].
    apply has_whitespace_true in Hws as (pre & w & post & -> & Hpre & Hw).
    rewrite (dropped_letter_whitespace _ _ _ _ Hpre Hw). naive_solver.
  - destruct (presets_no_whitespace _ _ Hws) as [-> _].
    unfold horizontal_proximity_typo.
    rewrite (proximity_typo_returns_lowercase _ _ _ Hws). naive_solver.
Qed.

(** X10.  [common] and [mix] accept the same tokens: those without whitespace
    that consist of the letters [a] to [z].  With the interpreter's own
    character database these are the tokens of lowercase ASCII letters.  On a
    token with whitespace both presets behave as [dropped_letter] alone: its
    variants for the positions before the whitespace, then the whitespace
    error. *)
Theorem presets_accept ucd value :
  (raised (common ucd value) = None ↔
   has_whitespace ucd value = false ∧ lowercase_ascii_only value)
  ∧ (raised (mix ucd value) = None ↔ raised (common ucd value) = None)
  ∧ (raised (common cpython value) = None ↔ lowercase_ascii_only value)
  ∧ (has_whitespace ucd value = true →
     common ucd value = dropped_letter ucd value
     ∧ mix ucd value = dropped_letter ucd value
     ∧ raised (dropped_letter ucd value) = Some WhitespaceError).
Proof.
  pose proof (λ ucd', common_returns ucd' value) as Hcommon.
  split_and!; [done| | |].
  - rewrite Hcommon. destruct (has_whitespace ucd value) eqn:Hws.
    + destruct (presets_whitespace _ _ Hws) as [_ ->].
      apply has_whitespace_true in Hws as (pre & w & post & -> & Hpre & Hw).
      rewrite (dropped_letter_whitespace _ _ _ _ Hpre Hw). naive_solver.
    + destruct (presets_no_whitespace _ _ Hws) as [Hc Hm].
      pose proof (proximity_typo_returns_lowercase ucd QWERTY_HORIZONTAL _ Hws) as Hh.
      pose proof (proximity_typo_returns_lowercase ucd QWERTY_VERTICAL _ Hws) as Hv.
      split.
      * intros Hmix. split; [done|].
        destruct (raised (horizontal_proximity_typo ucd value)) as [e|] eqn:He.
        -- exfalso.
           assert (mix ucd value = common ucd value) as Heq
             by (apply common_raises_mix; by rewrite Hc).
           by rewrite Heq, Hc in Hmix.
        -- by apply Hh.
      * intros [_ Hlow]. rewrite Hm; [by apply Hv|by apply Hh].
  - rewrite Hcommon. split; [by intros [_ ?]|].
    intros Hlow. split; [by apply lowercase_no_whitespace|done].
  - intros Hws. destruct (presets_whitespace _ _ Hws) as [-> ->].
    split_and!; [done..|].
    apply has_whitespace_true in Hws as (pre & w & post & -> & Hpre & Hw).
    by rewrite (dropped_letter_whitespace _ _ _ _ Hpre Hw).
Qed.

Lemma presets_accept_witness :
  common cpython (py "a b") = Trace [py " b"] (Some WhitespaceError).
Proof.
  destruct (presets_accept cpython (py "a b")) as (_ & _ & _ & H).
  destruct H as (-> & _); reflexivity.
Defined.

(** ** multiple as a combinator *)

Lemma drained_app value handlers1 handlers2 :
  drained value (handlers1 ++ handlers2)
  = match (drained value handlers1).2 with
    | Some e => drained value handlers1
    | None =>
        ((drained value handlers1).1 ++ (drained value handlers2).1,
         (drained value handlers2).2)
    end.
Proof.
  induction handlers1 as [|h handlers1 IH]; csimpl.
  - by destruct (drained value handlers2).
  - destruct (raised (h value)); csimpl; [done|]. rewrite IH.
    destruct (drained value handlers1) as [more [e|]]; csimpl; [done|].
    by rewrite app_assoc.
Qed.

Lemma drained_returns value handlers :
  (drained value handlers).2 = None ↔
  ∀ h, h ∈ handlers → raised (h value) = None.
Proof.
  induction handlers as [|h handlers IH]; csimpl.
  - split; [by intros _ ? ?%elem_of_nil|done].
  - destruct (raised (h value)) as [e|] eqn:He; csimpl.
    + split; [done|]. intros Hall. specialize (Hall h). rewrite He in Hall.
      by discriminate Hall; left.
    + destruct (drained value handlers) as [more r]; csimpl in *. rewrite IH.
      split.
      * intros Hall h' [->|?]%elem_of_cons; auto.
      * intros Hall h' ?. apply Hall. by right.
Qed.

(** X11.  [multiple] over one handler whose output has no repetition is that
    handler: around [dropped_letter], [swapped_letter], [swapped_casing] or
    [proximity_typo] alone it changes neither the variants, nor their order,
    nor the exception. *)
Theorem multiple_single :
  (∀ value (handler : str → trace),
     NoDup (yields (handler value)) → multiple value [handler] = handler value)
  ∧ (∀ ucd layout value,
       multiple value [dropped_letter ucd] = dropped_letter ucd value
       ∧ multiple value [swapped_letter ucd] = swapped_letter ucd value
       ∧ multiple value [swapped_casing ucd] = swapped_casing ucd value
       ∧ multiple value [proximity_typo ucd layout]
         = proximity_typo ucd layout value).
Proof.
  assert (∀ value (handler : str → trace),
    NoDup (yields (handler value)) → multiple value [handler] = handler value)
    as Hsingle.
  { intros value handler Hnd. rewrite multiple_spec. cbn [drained].
    destruct (handler value) as [ys [e|]]; cbn [raised yields fst snd] in *;
      by rewrite ?app_nil_r, first_seen_NoDup. }
  split; [done|]. intros ucd layout value.
  split_and!; apply Hsingle;
    unfold dropped_letter, swapped_letter, swapped_casing, proximity_typo;
    rewrite for_each_spec; apply NoDup_first_seen.
Qed.

Lemma multiple_single_witness :
  multiple (py "to") [swapped_letter cpython] = Trace [py "ot"] None.
Proof.
  rewrite (proj1 multiple_single (py "to") (swapped_letter cpython));
    [reflexivity|].
  apply (bool_decide_unpack _). by vm_compute.
Defined.

(** X12.  [multiple] returns normally exactly when every handler does.  When
    the handlers of a first list all return, appending more handlers keeps
    what the first list yields as the beginning of the output, and the run
    ends as the appended handlers end it; when one of the first list raises,
    appended handlers are never run. *)
Theorem multiple_app value handlers1 handlers2 :
  (raised (multiple value handlers1) = None ↔
   ∀ h, h ∈ handlers1 → raised (h value) = None)
  ∧ (raised (multiple value handlers1) = None →
     yields (multiple value handlers1)
       `prefix_of` yields (multiple value (handlers1 ++ handlers2))
     ∧ raised (multiple value (handlers1 ++ handlers2))
       = raised (multiple value handlers2)
     ∧ ∀ v, v ∈ yields (multiple value (handlers1 ++ handlers2)) ↔
            v ∈ yields (multiple value handlers1)
            ∨ v ∈ yields (multiple value handlers2))
  ∧ (raised (multiple value handlers1) ≠ None →
     multiple value (handlers1 ++ handlers2) = multiple value handlers1).
Proof.
  rewrite !multiple_spec, drained_app; cbn [raised yields].
  split_and!.
  - apply drained_returns.
  - intros Hnone. rewrite Hnone; cbn [fst snd].
    rewrite first_seen_app. split_and!; [by apply prefix_app_r|done|].
    intros v. rewrite <-first_seen_app, !elem_of_first_seen. apply elem_of_app.
  - intros Hsome. by destruct (drained value handlers1) as [more [e|]].
Qed.

Lemma multiple_app_witness :
  yields (multiple (py "to") [dropped_letter cpython])
    `prefix_of` yields (multiple (py "to")
                          ([dropped_letter cpython] ++ [swapped_letter cpython])).
Proof.
  by apply (multiple_app (py "to") [dropped_letter cpython]
              [swapped_letter cpython]).
Defined.

(** ** The layout tables *)

(** X13.  Both layout tables have exactly the 26 lowercase ASCII letters as
    keys.  Every key has a neighbour, lists no neighbour twice and is not its
    own neighbour; every neighbour is a key, and adjacency is symmetric: a key
    is a neighbour of each of its neighbours.  No letter is both a horizontal
    and a vertical neighbour of the same key. *)
Theorem layout_tables :
  (∀ layout c, is_Some (value_of layout !! c) ↔ (97 ≤ c ≤ 122)%N)
  ∧ (∀ layout c neighbours,
       value_of layout !! c = Some neighbours →
       neighbours ≠ [] ∧ NoDup neighbours ∧ (c ∉ neighbours)
       ∧ ∀ r, r ∈ neighbours →
           ∃ back, value_of layout !! r = Some back ∧ c ∈ back)
  ∧ (∀ c across down r,
       value_of QWERTY_HORIZONTAL !! c = Some across →
       value_of QWERTY_VERTICAL !! c = Some down →
       r ∈ across → (r ∉ down)).
Proof.
  split_and!.
  - apply layout_keys.
  - intros layout c neighbours Hc%value_of_items.
    assert (Forall (λ kn : N * list N,
              kn.2 ≠ [] ∧ NoDup kn.2 ∧ (kn.1 ∉ kn.2)
              ∧ Forall (λ r, kn.1 ∈ default [] (value_of layout !! r)) kn.2)
              (items layout)) as Hall by by_rows layout.
    rewrite Forall_forall in Hall.
    destruct (Hall _ Hc) as (? & ? & ? & Hback). split_and!; [done..|].
    rewrite Forall_forall in Hback. intros r Hr. specialize (Hback r Hr).
    destruct (value_of layout !! r) as [back|]; [by exists back|].
    by apply elem_of_nil in Hback.
  - intros c across down r Hh%value_of_items Hv Hr.
    assert (Forall (λ kn : N * list N,
              Forall (λ r, r ∉ default [] (value_of QWERTY_VERTICAL !! kn.1)) kn.2)
              (items QWERTY_HORIZONTAL)) as Hall
      by (apply (bool_decide_unpack _); by vm_compute).
    rewrite Forall_forall in Hall. specialize (Hall _ Hh).
    rewrite Forall_forall in Hall. specialize (Hall r Hr).
    cbn [fst] in Hall. by rewrite Hv in Hall.
Qed.

Lemma layout_tables_witness :
  ∃ back, value_of QWERTY_VERTICAL !! 122%N = Some back ∧ 115%N ∈ back.
Proof.
  destruct layout_tables as (_ & H & _).
  destruct (H QWERTY_VERTICAL 115%N (py "wezx")) as (_ & _ & _ & Hback);
    [reflexivity|].
  apply Hback. vm_compute. do 2 right. left.
Defined.

(** ** swapped_casing on ASCII letters *)

Lemma bind_middle (f : N → str) (before after : str) c :
  (before ++ c :: after) ≫= f = (before ≫= f) ++ f c ++ (after ≫= f).
Proof. by rewrite bind_app, bind_cons. Qed.

Lemma ascii_letter_inverted c :
  (65 ≤ c ≤ 90)%N ∨ (97 ≤ c ≤ 122)%N →
  ch_isspace cpython c = false
  ∧ ∃ c', case_inverted cpython [c] = Some [c'] ∧ c' ≠ c
          ∧ ch_lower cpython c' = ch_lower cpython c.
Proof.
  intros Hc.
  assert (c ∈ (N.of_nat <$> seq 65 26 ++ seq 97 26)) as Hin.
  { apply list_elem_of_fmap. exists (N.to_nat c).
    split; [by rewrite N2Nat.id|]. rewrite elem_of_app, !elem_of_seq. lia. }
  assert (forallb (λ c,
            negb (ch_isspace cpython c)
            && match case_inverted cpython [c] with
               | Some [c'] =>
                   negb (bool_decide (c' = c))
                   && bool_decide (ch_lower cpython c' = ch_lower cpython c)
               | _ => false
               end) (N.of_nat <$> seq 65 26 ++ seq 97 26) = true) as Hall
    by by vm_compute.
  rewrite forallb_forall in Hall.
  specialize (Hall c (proj1 (list_elem_of_In _ _) Hin)).
  apply andb_prop in Hall as [Hs%negb_true_iff Hinv]. split; [done|].
  destruct (case_inverted cpython [c]) as [[|c' [|??]]|]; try done.
  apply andb_prop in Hinv as [Hne%negb_true_iff%bool_decide_eq_false
                                Hlow%bool_decide_eq_true].
  by exists c'.
Qed.

(** X14.  With the interpreter's character database, [swapped_casing] returns
    normally on every token of ASCII letters, and each of its variants is the
    token with one letter changed to its other case: the same length, one
    position different, and the same string once both are lowercased. *)
Theorem swapped_casing_ascii value :
  ascii_letters_only value →
  raised (swapped_casing cpython value) = None
  ∧ ∀ v, v ∈ yields (swapped_casing cpython value) →
      length v = length value
      ∧ lower cpython v = lower cpython value
      ∧ ∃ i, i < length value ∧ v !! i ≠ value !! i
             ∧ ∀ j, j ≠ i → v !! j = value !! j.
Proof.
  intros Hascii. split.
  - apply swapped_casing_returns. intros c Hc%Hascii.
    destruct (ascii_letter_inverted c Hc) as (Hs & c' & -> & _). by eauto.
  - intros v ([position c] & vs & Hitem & Hbody & Hv)%yields_elem.
    apply elem_of_enumerate, list_elem_of_lookup_2 in Hitem.
    destruct (ascii_letter_inverted c (Hascii _ Hitem))
      as (Hs & c' & Hinv & Hne & Hlow).
    apply partition_elem in Hitem as (i & Hi & Hfirst & _).
    rewrite (swapped_casing_body_offer _ _ _ _ _ _ Hi Hfirst Hs Hinv) in Hbody.
    injection Hbody as <-. apply list_elem_of_singleton in Hv as ->.
    pose proof (lookup_lt_Some _ _ _ Hi) as Hlt.
    unfold replaced. rewrite (replace_first _ _ _ _ Hi).
    split_and!; [apply length_insert| |].
    + rewrite <-(take_drop_middle _ _ _ Hi) at 2.
      rewrite insert_take_drop by done. unfold lower.
      by rewrite !bind_middle, Hlow.
    + exists i. split_and!; [done| |].
      * rewrite list_lookup_insert_eq, Hi by done. by intros [= ->].
      * intros j Hj. by rewrite list_lookup_insert_ne.
Qed.

Lemma swapped_casing_ascii_witness :
  raised (swapped_casing cpython (py "McCoy")) = None.
Proof.
  apply (swapped_casing_ascii (py "McCoy")).
  intros c Hc. vm_compute in Hc.
  repeat (apply elem_of_cons in Hc as [->|Hc]; [lia|]).
  by apply elem_of_nil in Hc.
Defined.

Lemma proximity_typo_distinct_letters_witness :
  proximity_typo cpython QWERTY_HORIZONTAL (py "cat")
  = Trace [py "xat"; py "vat"; py "cst"; py "car"; py "cay"] None.
Proof.
  rewrite (proximity_typo_distinct_letters cpython QWERTY_HORIZONTAL (py "cat"));
    [reflexivity| |reflexivity|].
  - apply (bool_decide_unpack _). by vm_compute.
  - intros c Hc. apply layout_covers. vm_compute in Hc.
    repeat (apply elem_of_cons in Hc as [->|Hc]; [lia|]).
    by apply elem_of_nil in Hc.
Defined.

(** * The command-line script *)

Lemma key_lt_code a b : key_lt a b = true ↔ key_code a < key_code b.
Proof.
  destruct a as [[n1 s1] f1], b as [[n2 s2] f2]. unfold key_lt, key_code; simpl.
  destruct s1, s2, f1, f2; simpl;
    repeat case_bool_decide; simpl; rewrite ?bool_decide_eq_true;
    split; (done || lia).
Qed.

Lemma insert_reverse_perm {K} (lt : K → K → bool) x l :
  insert_reverse lt x l ≡ₚ x :: l.
Proof.
  induction l as [|y l IH]; simpl; [done|].
  destruct (lt x.1 y.1); [|done]. by rewrite IH, Permutation_swap.
Qed.

Lemma sort_reverse_perm {K} (lt : K → K → bool) l :
  foldr (insert_reverse lt) [] l ≡ₚ l.
Proof.
  induction l as [|x l IH]; simpl; [done|]. by rewrite insert_reverse_perm, IH.
Qed.

Lemma insert_reverse_sorted (x : nat * bool * bool * str) l :
  StronglySorted (λ a b, key_code b.1 ≤ key_code a.1) l →
  StronglySorted (λ a b, key_code b.1 ≤ key_code a.1) (insert_reverse key_lt x l).
Proof.
  induction l as [|y l IH]; simpl; [by repeat constructor|].
  intros [Hy Hl]%StronglySorted_cons.
  destruct (key_lt x.1 y.1) eqn:Hlt.
  - apply key_lt_code in Hlt. apply StronglySorted_cons. split; [|by apply IH].
    rewrite insert_reverse_perm. constructor; [lia|done].
  - assert (key_code y.1 ≤ key_code x.1) as Hge.
    { destruct (decide (key_code x.1 < key_code y.1)) as [Hc|Hc]; [|lia].
      apply key_lt_code in Hc. congruence. }
    apply StronglySorted_cons. split; [|by apply StronglySorted_cons].
    constructor; [done|]. eapply Forall_impl; [exact Hy|]. simpl. lia.
Qed.

Lemma sort_reverse_sorted (l : list (nat * bool * bool * str)) :
  StronglySorted (λ a b, key_code b.1 ≤ key_code a.1)
    (foldr (insert_reverse key_lt) [] l).
Proof.
  induction l as [|x l IH]; simpl; [constructor|]. by apply insert_reverse_sorted.
Qed.

Lemma tally_fold ucd default_words ys t :
  foldl (tally_step ucd default_words) t ys
  = Tally (index t + length ys)
          (list_to_set (filter (clash ucd default_words) ys) ∪ clashes t)
          (variations t ++ filter (λ v, v ≠ []) ys).
Proof.
  revert t. induction ys as [|v ys IH]; intros [i c vs]; simpl.
  - f_equal; [lia|set_solver|by rewrite app_nil_r].
  - rewrite IH; simpl. f_equal.
    + lia.
    + destruct (decide (clash ucd default_words v)) as [Hc|Hc].
      * rewrite (filter_cons_True _ _ _ Hc). destruct Hc as [Hin Hlen].
        assert (default_words ≠ ∅) as Hne by set_solver.
        rewrite (bool_decide_eq_true_2 _ Hne), (bool_decide_eq_true_2 _ Hin),
          (bool_decide_eq_true_2 _ Hlen).
        simpl. set_solver.
      * rewrite (filter_cons_False _ _ _ Hc).
        destruct (bool_decide (default_words ≠ ∅)
                  && bool_decide (lower ucd v ∈ default_words)
                  && bool_decide (1 < length v)) eqn:Hguard; [|done].
        apply andb_prop in Hguard as [[_ ?%bool_decide_eq_true]%andb_prop
                                        ?%bool_decide_eq_true].
        by destruct Hc.
    + destruct (decide (v ≠ [])) as [Hv|Hv].
      * rewrite (filter_cons_True (λ v : str, v ≠ []) _ _ Hv),
          (bool_decide_eq_true_2 _ Hv).
        by rewrite <-app_assoc.
      * by rewrite (filter_cons_False (λ v : str, v ≠ []) _ _ Hv),
          (bool_decide_eq_false_2 _ Hv).
Qed.

Lemma keyed_by_length ucd original l :
  original ≠ [] → Forall (λ v, v ≠ []) l →
  ∃ decorated,
    keyed (by_length_then_similarity ucd original) l = inr decorated
    ∧ snd <$> decorated = l
    ∧ Forall (λ kv : nat * bool * bool * str, kv.1.1.1 = length kv.2) decorated.
Proof.
  intros Ho. induction 1 as [|v l Hv _ (decorated & Hk & Hl & Hlen)]; simpl.
  - by exists [].
  - destruct v as [|c v]; [done|]. destruct original as [|o original]; [done|].
    rewrite Hk. eexists. split_and!; [done|by rewrite fmap_cons, Hl|].
    by constructor.
Qed.

(** At least one variant of an accepted word is not empty. *)
Lemma common_some_variant ucd word :
  word ≠ [] → raised (common ucd word) = None →
  ∃ v, v ∈ yields (common ucd word) ∧ v ≠ [].
Proof.
  intros Hword Hret. pose proof Hret as [Hws Hlow]%common_returns.
  destruct word as [|c word]; [done|].
  destruct (layout_covers QWERTY_HORIZONTAL c) as [ns Hns]; [apply Hlow; left|].
  assert (ns ≠ []) as Hne.
  { apply value_of_items in Hns.
    assert (Forall (λ kn : N * list N, kn.2 ≠ []) (items QWERTY_HORIZONTAL))
      as Hall by (apply (bool_decide_unpack _); by vm_compute).
    rewrite Forall_forall in Hall. apply (Hall _ Hns). }
  destruct ns as [|r ns]; [done|].
  exists (r :: word). split; [|done].
  unfold common, common_handlers. rewrite multiple_spec; cbn [yields].
  apply elem_of_first_seen.
  rewrite drained_all.
  - csimpl. rewrite !elem_of_app. right. right. left.
    unfold horizontal_proximity_typo, proximity_typo, enumerate.
    rewrite imap_cons.
    eapply (for_each_offers_then _ [] (0, c)); [by intros ? ?%elem_of_nil| |].
    + unfold proximity_typo_body, partition. cbn [find].
      rewrite decide_True by done. cbn [take drop].
      rewrite isspace_one, (proj1 (has_whitespace_false _ _) Hws c), Hns by left.
      done.
    + csimpl. left.
  - apply drained_returns. unfold common in Hret.
    by rewrite multiple_spec in Hret.
Qed.

Lemma StronglySorted_lengths (l : list (nat * bool * bool * str)) :
  Forall (λ kv, kv.1.1.1 = length kv.2) l →
  StronglySorted (λ a b, key_code b.1 ≤ key_code a.1) l →
  StronglySorted (λ v w : str, length w ≤ length v) (snd <$> l).
Proof.
  induction l as [|a l IH]; csimpl; [constructor|].
  intros [Ha Hl]%Forall_cons [Hal Hs]%StronglySorted_cons.
  apply StronglySorted_cons. split; [|by apply IH].
  rewrite Forall_fmap. rewrite Forall_forall in Hal, Hl.
  apply Forall_forall. intros b Hb. specialize (Hal b Hb). specialize (Hl b Hb).
  destruct a as [[[n1 s1] f1] v], b as [[[n2 s2] f2] w].
  unfold key_code in Hal. simpl in *. subst. destruct s1, s2, f1, f2; lia.
Qed.

Lemma elem_of_join sep parts c :
  c ∈ join sep parts → c ∈ sep ∨ ∃ part, part ∈ parts ∧ c ∈ part.
Proof.
  induction parts as [|part parts IH]; simpl; [by intros ?%elem_of_nil|].
  destruct parts as [|next parts].
  - intros ?. right. exists part. split; [left|done].
  - rewrite !elem_of_app. intros [?|[?|Hc]]; [|by left|].
    + right. exists part. split; [left|done].
    + destruct (IH Hc) as [?|(p & ? & ?)]; [by left|].
      right. exists p. split; [by right|done].
Qed.

(** X16.  For a word that [common] accepts, the script ends with exit code 0
    and never with an exception: the sort key is only computed for the
    non-empty variations.  The total is the number of variants of [common],
    the clashes are the variants longer than one character whose lowercase
    form is in the dictionary, and the alternation joins with a bar exactly
    the non-empty variants, each once, a longer one never after a shorter
    one.  The alternation consists of bars and lowercase ASCII letters. *)
Theorem main_accepted ucd default_words word :
  word ≠ [] → raised (common ucd word) = None →
  ∃ ordered,
    main ucd default_words word
    = Exit0 (length (yields (common ucd word)))
            (list_to_set (filter (clash ucd default_words)
                            (yields (common ucd word))))
            (Some (join (py "|") ordered))
    ∧ ordered ≡ₚ filter (λ v, v ≠ []) (yields (common ucd word))
    ∧ NoDup ordered
    ∧ StronglySorted (λ v w, length w ≤ length v) ordered
    ∧ ∀ c, c ∈ join (py "|") ordered → c = 124%N ∨ (97 ≤ c ≤ 122)%N.
Proof.
  intros Hword Hret.
  destruct (common_some_variant _ _ Hword Hret) as (v0 & Hv0 & Hne0).
  pose proof Hret as [_ Hlow]%common_returns.
  set (ys := yields (common ucd word)) in *.
  assert (Forall (λ v : str, v ≠ []) (filter (λ v : str, v ≠ []) ys)) as Hall.
  { apply Forall_forall. by intros v [? _]%list_elem_of_filter. }
  destruct (keyed_by_length ucd word _ Hword Hall)
    as (decorated & Hkeyed & Hsnd & Hlen).
  exists (snd <$> foldr (insert_reverse key_lt) [] decorated).
  assert (snd <$> foldr (insert_reverse key_lt) [] decorated
          ≡ₚ filter (λ v : str, v ≠ []) ys) as Hperm.
  { by rewrite sort_reverse_perm, Hsnd. }
  split_and!.
  - unfold main. rewrite bool_decide_eq_false_2, Hret by done.
    fold ys. rewrite tally_fold. cbn [index clashes variations app].
    destruct (filter (λ v : str, v ≠ []) ys) as [|v vs] eqn:Hfilter.
    { exfalso. assert (v0 ∈ filter (λ v : str, v ≠ []) ys) as Hin
        by by apply list_elem_of_filter.
      rewrite Hfilter in Hin. by apply elem_of_nil in Hin. }
    unfold sorted_reverse. rewrite Hkeyed.
    f_equal; first [done|lia|set_solver].
  - done.
  - rewrite Hperm. apply NoDup_filter.
    unfold ys, common. rewrite multiple_spec. apply NoDup_first_seen.
  - apply StronglySorted_lengths; [|apply sort_reverse_sorted].
    by rewrite sort_reverse_perm.
  - intros c [Hc|(part & Hpart & Hc)]%elem_of_join.
    + left. by apply list_elem_of_singleton in Hc.
    + right. rewrite Hperm in Hpart. apply list_elem_of_filter in Hpart as [_ Hpart].
      assert (lowercase_ascii_only part) as Hl; [|by apply Hl].
      destruct (mix_elem ucd word part) as [Hv|[Hv|[layout Hv]]]; [by left|..].
      * by eapply dropped_letter_lowercase.
      * by eapply swapped_letter_lowercase.
      * by eapply proximity_typo_lowercase.
Qed.

Lemma main_accepted_witness :
  ∃ ordered,
    main cpython {[py "car"; py "at"]} (py "cat")
    = Exit0 (length (yields (common cpython (py "cat"))))
            (list_to_set (filter (clash cpython {[py "car"; py "at"]})
                            (yields (common cpython (py "cat")))))
            (Some (join (py "|") ordered))
    ∧ ordered ≡ₚ filter (λ v, v ≠ []) (yields (common cpython (py "cat")))
    ∧ NoDup ordered
    ∧ StronglySorted (λ v w, length w ≤ length v) ordered
    ∧ ∀ c, c ∈ join (py "|") ordered → c = 124%N ∨ (97 ≤ c ≤ 122)%N.
Proof.
  apply (main_accepted cpython {[py "car"; py "at"]} (py "cat"));
    [done|reflexivity].
Defined.

(** The script on ["cat"] with a dictionary that holds ["car"], ["at"] and
    ["a"]. *)
Example main_cat :
  main cpython {[py "car"; py "at"; py "a"]} (py "cat")
  = Exit0 10 {[py "car"; py "at"]}
          (Some (py "cta|act|cst|car|cay|xat|vat|ct|ca|at")).
Proof. by vm_compute. Qed.




(** * The constituents of the presets never overlap *)

Lemma proximity_variant ucd layout value v :
  v ∈ yields (proximity_typo ucd layout value) →
  ∃ i c neighbours r,
    value !! i = Some c ∧ value_of layout !! c = Some neighbours
    ∧ r ∈ neighbours ∧ r ≠ c ∧ v = <[i:=r]> value.
Proof.
  intros ([position letter] & vs & Hitem & Hbody & Hv)%yields_elem.
  apply elem_of_enumerate, list_elem_of_lookup_2 in Hitem.
  apply proximity_typo_body_inv in Hbody
    as (i & neighbours & Hi & _ & _ & Hl & ->); [|done].
  apply list_elem_of_fmap in Hv as (r & -> & Hr).
  exists i, letter, neighbours, r. split_and!; [done..| |done].
  by eapply neighbour_differs.
Qed.

Lemma swapped_variant ucd value v :
  v ∈ yields (swapped_letter ucd value) →
  ∃ i a b,
    value !! i = Some a ∧ value !! S i = Some b
    ∧ v = <[i:=b]> (<[S i:=a]> value).
Proof.
  intros (i & vs & _ & [Hi ->]%swapped_letter_body_inv & Hv)%yields_elem.
  apply list_elem_of_singleton in Hv as ->.
  destruct (lookup_lt_is_Some_2 value i) as [a Ha]; [lia|].
  destruct (lookup_lt_is_Some_2 value (S i)) as [b Hb]; [lia|].
  exists i, a, b. unfold transposed. by rewrite Ha, Hb.
Qed.

Lemma across_not_down c across down r :
  value_of QWERTY_HORIZONTAL !! c = Some across →
  value_of QWERTY_VERTICAL !! c = Some down →
  r ∈ across → r ∉ down.
Proof.
  intros Hh%value_of_items Hv Hr.
  assert (Forall (λ kn : N * list N,
            Forall (λ r, r ∉ default [] (value_of QWERTY_VERTICAL !! kn.1)) kn.2)
            (items QWERTY_HORIZONTAL)) as Hall
    by (apply (bool_decide_unpack _); by vm_compute).
  rewrite Forall_forall in Hall. specialize (Hall _ Hh).
  rewrite Forall_forall in Hall. specialize (Hall r Hr).
  cbn [fst] in Hall. by rewrite Hv in Hall.
Qed.

Lemma swapped_not_proximity ucd layout value v :
  v ∈ yields (swapped_letter ucd value) →
  v ∉ yields (proximity_typo ucd layout value).
Proof.
  intros (i & a & b & Ha & Hb & ->)%swapped_variant
         (j & c & ns & r & Hc & _ & _ & Hne & Heq)%proximity_variant.
  pose proof (lookup_lt_Some _ _ _ Ha). pose proof (lookup_lt_Some _ _ _ Hb).
  pose proof (lookup_lt_Some _ _ _ Hc).
  assert (∀ k, (<[i:=b]> (<[S i:=a]> value)) !! k = (<[j:=r]> value) !! k)
    as Hk by (intros k; by rewrite Heq).
  pose proof (Hk i) as Hi. pose proof (Hk (S i)) as HSi.
  rewrite list_lookup_insert_eq in Hi by (rewrite length_insert; lia).
  rewrite list_lookup_insert_ne, list_lookup_insert_eq in HSi by lia.
  destruct (decide (j = i)) as [->|Hji].
  - rewrite list_lookup_insert_eq in Hi by lia.
    rewrite list_lookup_insert_ne, Hb in HSi by lia.
    injection Hi as ->. injection HSi as ->. congruence.
  - rewrite list_lookup_insert_ne, Ha in Hi by done. injection Hi as ->.
    destruct (decide (j = S i)) as [->|HjSi].
    + rewrite list_lookup_insert_eq in HSi by lia. injection HSi as ->.
      congruence.
    + specialize (Hk j).
      rewrite !list_lookup_insert_ne, list_lookup_insert_eq, Hc in Hk by (done || lia).
      congruence.
Qed.

Lemma horizontal_not_vertical ucd value v :
  v ∈ yields (horizontal_proximity_typo ucd value) →
  v ∉ yields (vertical_proximity_typo ucd value).
Proof.
  intros (i & c & across & r & Hc & Hacross & Hr & Hne & ->)%proximity_variant
         (j & c' & down & r' & Hc' & Hdown & Hr' & Hne' & Heq)%proximity_variant.
  pose proof (lookup_lt_Some _ _ _ Hc). pose proof (lookup_lt_Some _ _ _ Hc').
  pose proof (f_equal (λ l, l !! i) Heq) as Hi. simpl in Hi.
  rewrite list_lookup_insert_eq in Hi by done.
  destruct (decide (j = i)) as [->|Hji].
  - rewrite list_lookup_insert_eq in Hi by done. injection Hi as ->.
    rewrite Hc in Hc'. injection Hc' as ->.
    by eapply across_not_down.
  - rewrite list_lookup_insert_ne, Hc in Hi by done. congruence.
Qed.

Lemma dropped_variant_length ucd value v :
  v ∈ yields (dropped_letter ucd value) → S (length v) = length value.
Proof.
  intros (i & vs & _ & [Hi ->]%dropped_letter_body_inv & Hv)%yields_elem.
  apply list_elem_of_singleton in Hv as ->.
  rewrite length_delete_lt by done. lia.
Qed.

Lemma swapped_variant_length ucd value v :
  v ∈ yields (swapped_letter ucd value) → length v = length value.
Proof.
  intros (i & a & b & _ & _ & ->)%swapped_variant. by rewrite !length_insert.
Qed.

Lemma proximity_variant_length ucd layout value v :
  v ∈ yields (proximity_typo ucd layout value) → length v = length value.
Proof.
  intros (i & c & ns & r & _ & _ & _ & _ & ->)%proximity_variant.
  by rewrite length_insert.
Qed.

Lemma constituents_NoDup ucd value :
  NoDup (yields (dropped_letter ucd value)
         ++ yields (swapped_letter ucd value)
         ++ yields (horizontal_proximity_typo ucd value)
         ++ yields (vertical_proximity_typo ucd value)).
Proof.
  assert (NoDup (yields (dropped_letter ucd value))
          ∧ NoDup (yields (swapped_letter ucd value))
          ∧ NoDup (yields (horizontal_proximity_typo ucd value))
          ∧ NoDup (yields (vertical_proximity_typo ucd value)))
    as (Hd & Hs & Hh & Hv).
  { unfold dropped_letter, swapped_letter, horizontal_proximity_typo,
      vertical_proximity_typo, proximity_typo.
    rewrite !for_each_spec. split_and!; apply NoDup_first_seen. }
  apply NoDup_app. split_and!; [done| |].
  { intros v Hvd%dropped_variant_length.
    rewrite !elem_of_app.
    intros [?%swapped_variant_length|[?%proximity_variant_length
                                     |?%proximity_variant_length]]; lia. }
  apply NoDup_app. split_and!; [done| |].
  { intros v Hvs. rewrite elem_of_app.
    intros [?|?]; by eapply swapped_not_proximity. }
  apply NoDup_app. split_and!; [done| |done].
  intros v Hvh. by apply horizontal_not_vertical.
Qed.

(** X18.  The three constituents of [common], and the four of [mix], never
    produce the same string: a variant of [dropped_letter] is shorter, one of
    [swapped_letter] differs from the token at two positions or at none, one
    of [proximity_typo] at exactly one, and the two layouts share no
    neighbour of a key.  So where a preset returns normally its output is
    the plain concatenation of the outputs of its constituents, and the
    number of its variants is the sum of theirs. *)
Theorem presets_concatenate ucd value :
  (raised (common ucd value) = None →
   yields (common ucd value)
   = yields (dropped_letter ucd value)
     ++ yields (swapped_letter ucd value)
     ++ yields (horizontal_proximity_typo ucd value))
  ∧ (raised (mix ucd value) = None →
     yields (mix ucd value)
     = yields (common ucd value) ++ yields (vertical_proximity_typo ucd value)
     ∧ length (yields (mix ucd value))
       = length (yields (dropped_letter ucd value))
         + length (yields (swapped_letter ucd value))
         + length (yields (horizontal_proximity_typo ucd value))
         + length (yields (vertical_proximity_typo ucd value))).
Proof.
  pose proof (constituents_NoDup ucd value) as Hnd.
  assert (raised (common ucd value) = None →
    yields (common ucd value)
    = yields (dropped_letter ucd value)
      ++ yields (swapped_letter ucd value)
      ++ yields (horizontal_proximity_typo ucd value)) as Hcommon.
  { unfold common. rewrite multiple_spec; cbn [raised yields].
    intros Hret. rewrite (drained_all _ _ (proj1 (drained_returns _ _) Hret)).
    unfold common_handlers. csimpl. rewrite app_nil_r.
    apply first_seen_NoDup.
    rewrite !app_assoc in Hnd. apply NoDup_app in Hnd as [Hnd _].
    by rewrite <-!app_assoc in Hnd. }
  split; [done|]. intros Hmix.
  assert (raised (common ucd value) = None) as Hret.
  { destruct (raised (common ucd value)) eqn:Hc; [|done].
    rewrite common_raises_mix in Hmix by by rewrite Hc. congruence. }
  rewrite (Hcommon Hret).
  assert (yields (mix ucd value)
    = yields (dropped_letter ucd value)
      ++ yields (swapped_letter ucd value)
      ++ yields (horizontal_proximity_typo ucd value)
      ++ yields (vertical_proximity_typo ucd value)) as ->.
  { revert Hmix. unfold mix. rewrite multiple_spec; cbn [raised yields].
    intros Hall. rewrite (drained_all _ _ (proj1 (drained_returns _ _) Hall)).
    unfold mix_handlers. csimpl. rewrite app_nil_r.
    by apply first_seen_NoDup. }
  split; [by rewrite <-!app_assoc|]. rewrite !length_app. lia.
Qed.

Lemma presets_concatenate_witness :
  yields (common cpython (py "noon"))
  = yields (dropped_letter cpython (py "noon"))
    ++ yields (swapped_letter cpython (py "noon"))
    ++ yields (horizontal_proximity_typo cpython (py "noon")).
Proof.
  by apply (presets_concatenate cpython (py "noon")).
Defined.
